(** * Chunker: a shallow embedding of [src/chunker.js]

    The hand-written chunking functions of the [Chunker] class
    ([equalSizeChunk], [sentenceChunk], [getChunkStats], [validateChunks])
    and the option merging done by its constructor and by the
    library-backed entry points, embedded as Rocq functions, together with
    the properties the specification states about them. *)

From Stdlib Require Import ZArith NArith Lia String Ascii List Sorted.
From stdpp Require Import base list option.

Local Open Scope Z_scope.

(** ** JavaScript values used by the chunker *)

(** A JavaScript string is a sequence of UTF-16 code units. *)
Abbreviation jsstring := (list N).

(** Literals: every character of a Rocq string is one code unit. *)
Definition js (s : string) : jsstring :=
  List.map N_of_ascii (list_ascii_of_string s).

(** [s.length] *)
Definition str_length (s : jsstring) : Z := Z.of_nat (length s).

(** The relative index resolution shared by [slice]'s two arguments:
    a negative index counts from the end, and the result is clamped
    to [0, len]. *)
Definition clamp_index (len i : Z) : Z :=
  if i <? 0 then Z.max (len + i) 0 else Z.min i len.

(** [s.slice(start, end)] for integer arguments. *)
Definition slice (s : jsstring) (start end_ : Z) : jsstring :=
  let len := str_length s in
  let from := clamp_index len start in
  let to := clamp_index len end_ in
  if to <=? from then []
  else take (Z.to_nat (to - from)) (drop (Z.to_nat from) s).

(** [s.substring(from, to)] for indices already known to satisfy
    [from <= to <= s.length], as the split algorithm uses it. *)
Definition substring_nat (s : jsstring) (from to : nat) : jsstring :=
  take (to - from)%nat (drop from s).

(** The code units matched by [\s] in a regular expression, which are
    also the ones removed by [trim]: WhiteSpace and LineTerminator. *)
Definition is_white_space (c : N) : bool :=
  ((9 <=? c) && (c <=? 13) || (c =? 32) || (c =? 160) || (c =? 5760)
   || (8192 <=? c) && (c <=? 8202) || (c =? 8232) || (c =? 8233)
   || (c =? 8239) || (c =? 8287) || (c =? 12288) || (c =? 65279))%N.

Fixpoint trim_start (s : jsstring) : jsstring :=
  match s with
  | c :: s' => if is_white_space c then trim_start s' else s
  | [] => []
  end.

(** [s.trim()] *)
Definition trim (s : jsstring) : jsstring :=
  rev (trim_start (rev (trim_start s))).

(** Truthiness of a string: only the empty string is falsy. *)
Definition str_truthy (s : jsstring) : bool :=
  match s with [] => false | _ => true end.

(** The numbers the statistics record can hold: the chunker only produces
    integers, except on an empty collection, where [0 / 0], [Math.min()]
    and [Math.max()] give the three special values. *)
Inductive jsnum : Type :=
| Num (z : Z)
| NaN
| PosInf
| NegInf.

(** How a call completes: normally with a value, or abruptly with a thrown
    error.  The first three error kinds are the ones the specification
    names; [RangeError] is the one the engine raises when an array or an
    argument list outgrows what it can hold. *)
Inductive error : Type :=
| InvalidConfigError
| EmptyInputError
| ExternalSplitterError
| RangeError.

Inductive completion (A : Type) : Type :=
| Return (a : A)
| Throw (e : error).
Arguments Return {A} a.
Arguments Throw {A} e.

(** ** [equalSizeChunk] *)

(** The mutable locals of the [while] loop. *)
Record loop_state : Type := LoopState {
  start : Z;
  chunks : list jsstring
}.

(** What one pass over the loop does: either control leaves the loop
    (the [while] condition is false, or the [break] is taken) or the
    loop goes round again with updated locals. *)
Inductive step_result : Type :=
| Exit (chunks : list jsstring)
| Continue (st : loop_state).

Section Loop.
Variables (text : jsstring) (chunkSize overlap : Z).

Definition loop_step (st : loop_state) : step_result :=
  if start st <? str_length text then
    let end_ := Z.min (start st + chunkSize) (str_length text) in
    let chunks' := chunks st ++ [slice text (start st) end_] in
    let start' := end_ - overlap in
    if str_length text <=? start' then Exit chunks'
    else Continue (LoopState start' chunks')
  else Exit (chunks st).

(** The loop, run for at most [fuel] passes; [None] means that control
    is still inside the loop after [fuel] passes. *)
Fixpoint loop (fuel : nat) (st : loop_state) : option (list jsstring) :=
  match fuel with
  | O => None
  | S fuel' =>
      match loop_step st with
      | Exit cs => Some cs
      | Continue st' => loop fuel' st'
      end
  end.

(** The locals after [n] passes, as long as control stays in the loop. *)
Fixpoint passes (n : nat) (st : loop_state) : step_result :=
  match n with
  | O => Continue st
  | S n' =>
      match loop_step st with
      | Exit cs => Exit cs
      | Continue st' => passes n' st'
      end
  end.
End Loop.

(** [equalSizeChunk(text, chunkSize, overlap)]: the function has no
    [throw]; when the loop is left it returns [chunks].  Here the array
    [chunks] can grow to any length; [equalSizeChunk_limited] below is the
    same function on an engine whose arrays have a greatest length. *)
Definition equalSizeChunk (fuel : nat) (text : jsstring)
    (chunkSize overlap : Z) : option (completion (list jsstring)) :=
  Return <$> loop text chunkSize overlap fuel (LoopState 0 []).

(** The call returns [cs]. *)
Definition equalSizeChunk_returns (text : jsstring) (chunkSize overlap : Z)
    (cs : list jsstring) : Prop :=
  ∃ fuel, equalSizeChunk fuel text chunkSize overlap = Some (Return cs).

(** The call never completes. *)
Definition equalSizeChunk_diverges (text : jsstring) (chunkSize overlap : Z) : Prop :=
  ∀ fuel, equalSizeChunk fuel text chunkSize overlap = None.


(** ** Option objects and the facade's defaults *)

(** The per-call (and constructor) options object; an absent property
    reads as [undefined], here [None].  Numeric properties are integers. *)
Record options : Type := Options {
  opt_chunkSize : option Z;
  opt_chunkOverlap : option Z;
  opt_separators : option (list jsstring);
  opt_separator : option jsstring;
  opt_encodingName : option jsstring
}.

(** [{}] *)
Definition no_options : options := Options None None None None None.

(** [a || b] where [a] is a number or [undefined]: [undefined] and [0]
    are falsy. *)
Definition or_num (a : option Z) (b : Z) : Z :=
  match a with
  | Some z => if z =? 0 then b else z
  | None => b
  end.

(** [a || b] where [a] is a string or [undefined]: [undefined] and the
    empty string are falsy. *)
Definition or_str (a : option jsstring) (b : jsstring) : jsstring :=
  match a with
  | Some s => if str_truthy s then s else b
  | None => b
  end.

(** [a || b] where [a] is an array or [undefined]: every array is truthy. *)
Definition or_arr (a : option (list jsstring)) (b : list jsstring) : list jsstring :=
  match a with
  | Some l => l
  | None => b
  end.

(** The fields of a [Chunker] instance. *)
Record Chunker : Type := MkChunker {
  defaultChunkSize : Z;
  defaultChunkOverlap : Z;
  defaultSeparators : list jsstring
}.

(** [new Chunker(options)] *)
Definition new_Chunker (o : options) : Chunker :=
  {| defaultChunkSize := or_num (opt_chunkSize o) 1000;
     defaultChunkOverlap := or_num (opt_chunkOverlap o) 200;
     defaultSeparators :=
       or_arr (opt_separators o) [[10; 10]%N; [10]%N; js " "; js ""] |}.

(** The exported [defaultChunker]. *)
Definition defaultChunker : Chunker :=
  new_Chunker (Options (Some 1000) (Some 200) None None None).

(** The splitter objects handed to the external library, with the
    configuration each entry point constructs them with. *)
Inductive splitter : Type :=
| RecursiveCharacterTextSplitter (chunkSize chunkOverlap : Z) (separators : list jsstring)
| CharacterTextSplitter (chunkSize chunkOverlap : Z) (separator : jsstring)
| TokenTextSplitter (chunkSize chunkOverlap : Z) (encodingName : jsstring)
| MarkdownTextSplitter (chunkSize chunkOverlap : Z).

Definition splitter_chunkSize (s : splitter) : Z :=
  match s with
  | RecursiveCharacterTextSplitter c _ _ | CharacterTextSplitter c _ _
  | TokenTextSplitter c _ _ | MarkdownTextSplitter c _ => c
  end.

Definition splitter_chunkOverlap (s : splitter) : Z :=
  match s with
  | RecursiveCharacterTextSplitter _ o _ | CharacterTextSplitter _ o _
  | TokenTextSplitter _ o _ | MarkdownTextSplitter _ o => o
  end.

Section Delegating.
Variable this : Chunker.

Definition recursiveCharacterChunk_splitter (o : options) : splitter :=
  RecursiveCharacterTextSplitter
    (or_num (opt_chunkSize o) (defaultChunkSize this))
    (or_num (opt_chunkOverlap o) (defaultChunkOverlap this))
    (or_arr (opt_separators o) (defaultSeparators this)).

Definition characterChunk_splitter (o : options) : splitter :=
  CharacterTextSplitter
    (or_num (opt_chunkSize o) (defaultChunkSize this))
    (or_num (opt_chunkOverlap o) (defaultChunkOverlap this))
    (or_str (opt_separator o) [10]%N).

Definition tokenChunk_splitter (o : options) : splitter :=
  TokenTextSplitter
    (or_num (opt_chunkSize o) 100)
    (or_num (opt_chunkOverlap o) 20)
    (or_str (opt_encodingName o) (js "cl100k_base")).

Definition markdownChunk_splitter (o : options) : splitter :=
  MarkdownTextSplitter
    (or_num (opt_chunkSize o) (defaultChunkSize this))
    (or_num (opt_chunkOverlap o) (defaultChunkOverlap this)).

Definition semanticChunk_splitter (o : options) : splitter :=
  RecursiveCharacterTextSplitter
    (or_num (opt_chunkSize o) (defaultChunkSize this))
    (or_num (opt_chunkOverlap o) (defaultChunkOverlap this))
    [[10; 10]%N; [10]%N; js ". "; js "! "; js "? "; js " "; js ""].

Definition delimiterChunk_splitter (delimiter : jsstring) (o : options) : splitter :=
  CharacterTextSplitter
    (or_num (opt_chunkSize o) (defaultChunkSize this))
    (or_num (opt_chunkOverlap o) (defaultChunkOverlap this))
    delimiter.

(** The library's [splitText], outside this repository. *)
Variable splitText : splitter → jsstring → completion (list jsstring).

Definition recursiveCharacterChunk (text : jsstring) (o : options) :=
  splitText (recursiveCharacterChunk_splitter o) text.
Definition characterChunk (text : jsstring) (o : options) :=
  splitText (characterChunk_splitter o) text.
Definition tokenChunk (text : jsstring) (o : options) :=
  splitText (tokenChunk_splitter o) text.
Definition markdownChunk (text : jsstring) (o : options) :=
  splitText (markdownChunk_splitter o) text.
Definition semanticChunk (text : jsstring) (o : options) :=
  splitText (semanticChunk_splitter o) text.
Definition delimiterChunk (text delimiter : jsstring) (o : options) :=
  splitText (delimiterChunk_splitter delimiter o) text.
End Delegating.

(** ** [sentenceChunk] *)

(** [[.!?]] *)
Definition is_terminal (c : N) : bool :=
  ((c =? 46) || (c =? 33) || (c =? 63))%N.

(** Length of the longest prefix of white space: what a greedy [\s+]
    consumes. *)
Fixpoint white_space_run (s : jsstring) : nat :=
  match s with
  | c :: s' => if is_white_space c then S (white_space_run s') else O
  | [] => O
  end.

(** The regular expression [/(?<=[.!?])\s+/] tried at position [q] only:
    the code unit before [q] is terminal punctuation and a non-empty run
    of white space starts at [q].  The result is the end of the match. *)
Definition boundary_at (s : jsstring) (q : nat) : option nat :=
  match q with
  | O => None
  | S q' =>
      match s !! q' with
      | Some c =>
          if is_terminal c then
            match white_space_run (drop q s) with
            | O => None
            | S n => Some (q + S n)%nat
            end
          else None
      | None => None
      end
  end.

(** The loop of [String.prototype.split] with a regular expression:
    [p] is the end of the last separator, [q] the position tried next.
    Every pass moves [q] forward, so [length s] passes are enough. *)
Fixpoint split_loop (fuel : nat) (s : jsstring) (p q : nat) : list jsstring :=
  match fuel with
  | O => [substring_nat s p (length s)]
  | S fuel' =>
      if (q <? length s)%nat then
        match boundary_at s q with
        | None => split_loop fuel' s p (S q)
        | Some e =>
            if (e =? p)%nat then split_loop fuel' s p (S q)
            else substring_nat s p q :: split_loop fuel' s e e
        end
      else [substring_nat s p (length s)]
  end.

(** [text.split(/(?<=[.!?])\s+/)]; on the empty string the expression
    does not match and the result is the one-element array holding
    the empty string. *)
Definition split_sentences (text : jsstring) : list jsstring :=
  match text with
  | [] => [[]]
  | _ => split_loop (length text) text 0 0
  end.

(** The locals [chunks] and [currentChunk] of [sentenceChunk]. *)
Definition sentence_state : Type := list jsstring * jsstring.

(** The body of the [for ... of] loop. *)
Definition sentence_step (limit : Z) (st : sentence_state)
    (sentence : jsstring) : sentence_state :=
  let '(chunks, currentChunk) := st in
  if str_length (currentChunk ++ sentence) <=? limit then
    (chunks,
     currentChunk ++ (if str_truthy currentChunk then js " " else js "") ++ sentence)
  else
    (if str_truthy currentChunk then chunks ++ [trim currentChunk] else chunks,
     sentence).

(** What follows the loop. *)
Definition sentence_finish (st : sentence_state) : list jsstring :=
  let '(chunks, currentChunk) := st in
  if str_truthy currentChunk then chunks ++ [trim currentChunk] else chunks.

(** The chunking of a list of sentences under a bound. *)
Definition chunk_sentences (limit : Z) (sentences : list jsstring) : list jsstring :=
  sentence_finish (fold_left (sentence_step limit) sentences ([], [])).

(** [sentenceChunk(text, options)] *)
Definition sentenceChunk (this : Chunker) (text : jsstring) (o : options)
    : list jsstring :=
  chunk_sentences (or_num (opt_chunkSize o) (defaultChunkSize this))
                  (split_sentences text).

(** ** [getChunkStats] *)

(** [Math.round(a / b)] for integers [a] and [b]: the quotient rounded to
    the nearest integer, a tie going up; [0 / 0] is [NaN] and another
    division by zero an infinity.  The quotient is taken exactly: the
    rounding error of the double division is left out, which is far below
    one half of [1 / b] for the totals a collection held in memory has. *)
Definition Math_round_div (a b : Z) : jsnum :=
  if b =? 0 then
    if a =? 0 then NaN else if 0 <? a then PosInf else NegInf
  else if 0 <? b then Num ((2 * a + b) / (2 * b))
  else Num ((2 * - a + - b) / (2 * - b)).

(** [Math.min(...l)]; with no argument the result is [Infinity]. *)
Definition Math_min (l : list Z) : jsnum :=
  match l with
  | [] => PosInf
  | x :: l' => Num (fold_left Z.min l' x)
  end.

(** [Math.max(...l)]; with no argument the result is [-Infinity]. *)
Definition Math_max (l : list Z) : jsnum :=
  match l with
  | [] => NegInf
  | x :: l' => Num (fold_left Z.max l' x)
  end.

Module Statistics.
Record t : Type := Make {
  totalChunks : Z;
  totalCharacters : Z;
  averageChunkSize : jsnum;
  minChunkSize : jsnum;
  maxChunkSize : jsnum;
  chunkSizes : list Z
}.
End Statistics.

(** [getChunkStats(chunks)]: the function has no [throw].  Here the two
    spread calls take any number of arguments; [getChunkStats_limited]
    below is the same function on an engine that accepts only so many. *)
Definition getChunkStats (chunks : list jsstring) : completion Statistics.t :=
  let lengths := List.map (λ chunk, str_length chunk) chunks in
  let totalLength := fold_left (λ sum len, sum + len) lengths 0 in
  Return
    {| Statistics.totalChunks := Z.of_nat (length chunks);
       Statistics.totalCharacters := totalLength;
       Statistics.averageChunkSize :=
         Math_round_div totalLength (Z.of_nat (length chunks));
       Statistics.minChunkSize := Math_min lengths;
       Statistics.maxChunkSize := Math_max lengths;
       Statistics.chunkSizes := lengths |}.

(** ** [validateChunks] *)

Module Validation.
Record t : Type := Make {
  isValid : bool;
  totalChunks : Z;
  validChunks : Z;
  oversizedChunks : Z;
  oversizedIndices : list Z
}.
End Validation.

(** [validateChunks(chunks, maxSize)] on the contents of the array, for an
    integer bound. *)
Definition validateChunks (chunks : list jsstring) (maxSize : Z) : Validation.t :=
  let oversizedChunks := List.filter (λ chunk, maxSize <? str_length chunk) chunks in
  let validChunks := List.filter (λ chunk, str_length chunk <=? maxSize) chunks in
  {| Validation.isValid := Z.of_nat (length oversizedChunks) =? 0;
     Validation.totalChunks := Z.of_nat (length chunks);
     Validation.validChunks := Z.of_nat (length validChunks);
     Validation.oversizedChunks := Z.of_nat (length oversizedChunks);
     Validation.oversizedIndices :=
       List.filter (λ index, negb (index =? -1))
         (imap (λ index chunk,
                  if maxSize <? str_length chunk then Z.of_nat index else -1)
               chunks) |}.

(** *** [validateChunks] on a store of arrays

    Arrays are objects: the caller passes a reference, and [filter] and
    [map] return references to arrays they allocate.  The store maps a
    reference to the elements of its array. *)

Inductive value : Type :=
| VStr (s : jsstring)
| VNum (z : Z).

Abbreviation loc := nat (only parsing).
Abbreviation store := (list (list value)).

(** A computation on the store; [None] is a read through a reference
    that is not allocated. *)
Definition M (A : Type) : Type := store → option (A * store).

#[global] Instance M_ret : MRet M := λ A a h, Some (a, h).
#[global] Instance M_bind : MBind M :=
  λ A B k m h, match m h with
               | Some (a, h') => k a h'
               | None => None
               end.

(** A new array holding [elems]. *)
Definition alloc (elems : list value) : M loc :=
  λ h, Some (length h, h ++ [elems]).

(** The elements of the array at [a]. *)
Definition read (a : loc) : M (list value) :=
  λ h, match h !! a with
       | Some elems => Some (elems, h)
       | None => None
       end.

(** [a.filter(p)] *)
Definition Array_filter (p : value → bool) (a : loc) : M loc :=
  elems ← read a; alloc (List.filter p elems).

(** [a.map(f)], the callback receiving the element and its index. *)
Definition Array_map (f : value → Z → value) (a : loc) : M loc :=
  elems ← read a; alloc (imap (λ index v, f v (Z.of_nat index)) elems).

(** [a.length] *)
Definition Array_length (a : loc) : M Z :=
  elems ← read a; mret (Z.of_nat (length elems)).

(** [v.length > maxSize]; a number has no [length], and [undefined]
    compares false. *)
Definition length_gt (maxSize : Z) (v : value) : bool :=
  match v with
  | VStr s => maxSize <? str_length s
  | VNum _ => false
  end.

(** [v.length <= maxSize] *)
Definition length_le (maxSize : Z) (v : value) : bool :=
  match v with
  | VStr s => str_length s <=? maxSize
  | VNum _ => false
  end.

(** [index !== -1] *)
Definition not_minus_one (v : value) : bool :=
  match v with
  | VNum z => negb (z =? -1)
  | VStr _ => true
  end.

(** The returned object, [oversizedIndices] being a reference. *)
Record validation_object : Type := ValidationObject {
  obj_isValid : bool;
  obj_totalChunks : Z;
  obj_validChunks : Z;
  obj_oversizedChunks : Z;
  obj_oversizedIndices : loc
}.

(** [validateChunks(chunks, maxSize)] on a reference [chunks]. *)
Definition validateChunks_store (chunks : loc) (maxSize : Z) : M validation_object :=
  oversizedChunks ← Array_filter (length_gt maxSize) chunks;
  validChunks ← Array_filter (length_le maxSize) chunks;
  n_oversized ← Array_length oversizedChunks;
  n_total ← Array_length chunks;
  n_valid ← Array_length validChunks;
  marked ← Array_map (λ chunk index,
                         if length_gt maxSize chunk then VNum index else VNum (-1))
                      chunks;
  indices ← Array_filter not_minus_one marked;
  mret {| obj_isValid := n_oversized =? 0;
         obj_totalChunks := n_total;
         obj_validChunks := n_valid;
         obj_oversizedChunks := n_oversized;
         obj_oversizedIndices := indices |}.

(** The four arrays a call of [validateChunks_store] allocates, in
    allocation order. *)
Definition allocated (maxSize : Z) (elems : list value) : store :=
  let marked :=
    imap (λ index v,
            if length_gt maxSize v then VNum (Z.of_nat index) else VNum (-1))
         elems in
  [List.filter (length_gt maxSize) elems;
   List.filter (length_le maxSize) elems;
   marked;
   List.filter not_minus_one marked].

(** The numbers held by an array of numbers. *)
Definition numbers_of (elems : list value) : list Z :=
  omap (λ v, match v with VNum z => Some z | VStr _ => None end) elems.

(** The returned object read back from the store, by value. *)
Definition read_validation (h : store) (r : validation_object) : option Validation.t :=
  elems ← h !! obj_oversizedIndices r;
  Some {| Validation.isValid := obj_isValid r;
          Validation.totalChunks := obj_totalChunks r;
          Validation.validChunks := obj_validChunks r;
          Validation.oversizedChunks := obj_oversizedChunks r;
          Validation.oversizedIndices := numbers_of elems |}.

(** ** The limits of the engine

    Two operations of the chunker fail on a real engine when their
    operand grows too large: [chunks.push(x)] once the array has the
    greatest length the engine allows ([RangeError: Invalid array
    length]), and the spread calls [Math.min(...lengths)] and
    [Math.max(...lengths)] once there are more arguments than the engine
    accepts ([RangeError: Maximum call stack size exceeded]).  Both
    bounds depend on the engine and are parameters here. *)

(** What one pass over the loop of [equalSizeChunk] does when [push] can
    fail. *)
Inductive limited_step : Type :=
| StepExit (chunks : list jsstring)
| StepContinue (st : loop_state)
| StepThrow (e : error).

Section ArrayLimit.
Variable max_array_length : nat.

(** [chunks.push(chunk)] *)
Definition Array_push (chunks : list jsstring) (chunk : jsstring)
    : completion (list jsstring) :=
  if (length chunks <? max_array_length)%nat then Return (chunks ++ [chunk])
  else Throw RangeError.

Variables (text : jsstring) (chunkSize overlap : Z).

Definition loop_step_limited (st : loop_state) : limited_step :=
  if start st <? str_length text then
    let end_ := Z.min (start st + chunkSize) (str_length text) in
    match Array_push (chunks st) (slice text (start st) end_) with
    | Throw e => StepThrow e
    | Return chunks' =>
        let start' := end_ - overlap in
        if str_length text <=? start' then StepExit chunks'
        else StepContinue (LoopState start' chunks')
    end
  else StepExit (chunks st).

(** The loop, run for at most [fuel] passes; [None] means that control
    is still inside the loop after [fuel] passes. *)
Fixpoint loop_limited (fuel : nat) (st : loop_state)
    : option (completion (list jsstring)) :=
  match fuel with
  | O => None
  | S fuel' =>
      match loop_step_limited st with
      | StepExit cs => Some (Return cs)
      | StepThrow e => Some (Throw e)
      | StepContinue st' => loop_limited fuel' st'
      end
  end.
End ArrayLimit.

(** [equalSizeChunk(text, chunkSize, overlap)] on an engine whose arrays
    hold at most [max_array_length] elements. *)
Definition equalSizeChunk_limited (max_array_length fuel : nat)
    (text : jsstring) (chunkSize overlap : Z)
    : option (completion (list jsstring)) :=
  loop_limited max_array_length text chunkSize overlap fuel (LoopState 0 []).

Section ArgumentLimit.
Variable max_arguments : nat.

(** [f(...args)] for a function of numbers that itself cannot fail. *)
Definition spread_call (f : list Z → jsnum) (args : list Z) : completion jsnum :=
  if (max_arguments <? length args)%nat then Throw RangeError
  else Return (f args).

(** [getChunkStats(chunks)] on an engine that accepts at most
    [max_arguments] arguments in a call; the properties of the returned
    object are evaluated in the order they are written. *)
Definition getChunkStats_limited (chunks : list jsstring)
    : completion Statistics.t :=
  let lengths := List.map (λ chunk, str_length chunk) chunks in
  let totalLength := fold_left (λ sum len, sum + len) lengths 0 in
  match spread_call Math_min lengths with
  | Throw e => Throw e
  | Return minChunkSize =>
      match spread_call Math_max lengths with
      | Throw e => Throw e
      | Return maxChunkSize =>
          Return
            {| Statistics.totalChunks := Z.of_nat (length chunks);
               Statistics.totalCharacters := totalLength;
               Statistics.averageChunkSize :=
                 Math_round_div totalLength (Z.of_nat (length chunks));
               Statistics.minChunkSize := minChunkSize;
               Statistics.maxChunkSize := maxChunkSize;
               Statistics.chunkSizes := lengths |}
      end
  end.
End ArgumentLimit.

(** ** The contracts, as the specification words them *)

Section Windows.
Variables (text : jsstring) (chunkSize overlap : Z).

(** Consecutive windows start [chunkSize - overlap] apart. *)
Definition stride : Z := chunkSize - overlap.

(** Chunk [i] covers the characters [[i*(S-O), i*(S-O)+S)], clamped to
    the length of the text. *)
Definition window (i : Z) : jsstring :=
  slice text (i * stride) (Z.min (i * stride + chunkSize) (str_length text)).

(** The number of windows whose start lies before the end of the text:
    the length divided by the stride, rounded up. *)
Definition window_count : nat :=
  Z.to_nat ((str_length text + stride - 1) / stride).

Definition windows : list jsstring :=
  List.map (λ i, window (Z.of_nat i)) (seq 0 window_count).
End Windows.

(** The sum of a list of sizes. *)
Definition sum_sizes (l : list Z) : Z := fold_right Z.add 0 l.

(** The number of chunks that satisfy a test. *)
Fixpoint count_chunks (p : jsstring → bool) (chunks : list jsstring) : Z :=
  match chunks with
  | [] => 0
  | c :: chunks' => (if p c then 1 else 0) + count_chunks p chunks'
  end.

(** The 0-based positions, counted from [k] for the head, of the chunks
    longer than the bound, in the order of the collection. *)
Fixpoint oversized_from (maxSize : Z) (k : nat) (chunks : list jsstring) : list Z :=
  match chunks with
  | [] => []
  | c :: chunks' =>
      if maxSize <? str_length c
      then Z.of_nat k :: oversized_from maxSize (S k) chunks'
      else oversized_from maxSize (S k) chunks'
  end.

Section SentenceBounds.
Variables (limit : Z) (sentences : list jsstring).

(** A chunk that is one sentence, trimmed, or is at most one character
    over the bound. *)
Definition chunk_within (c : jsstring) : Prop :=
  str_length c ≤ limit + 1 ∨ ∃ s, In s sentences ∧ c = trim s.

(** The same of the locals of the loop of [sentenceChunk]. *)
Definition running_within (st : sentence_state) : Prop :=
  List.Forall chunk_within (fst st)
  ∧ (snd st = [] ∨ str_length (snd st) ≤ limit + 1 ∨ In (snd st) sentences).
End SentenceBounds.

(** The pieces of a split put back together, each followed by the
    separator that was cut out after it. *)
Fixpoint interleave (pieces seps : list jsstring) : jsstring :=
  match pieces, seps with
  | piece :: pieces', sep :: seps' => piece ++ sep ++ interleave pieces' seps'
  | piece :: _, [] => piece
  | [], _ => []
  end.

(** A non-empty run of white space. *)
Definition white_space_only (sep : jsstring) : Prop :=
  sep ≠ [] ∧ List.Forall (λ c, is_white_space c = true) sep.

(** A numeric option that counts as supplied under [||]: present and
    not 0. *)
Definition supplied (a : option Z) : option Z :=
  match a with
  | Some z => if z =? 0 then None else Some z
  | None => None
  end.

(** [{...options, separator: sep}] *)
Definition with_separator (o : options) (sep : jsstring) : options :=
  {| opt_chunkSize := opt_chunkSize o;
     opt_chunkOverlap := opt_chunkOverlap o;
     opt_separators := opt_separators o;
     opt_separator := Some sep;
     opt_encodingName := opt_encodingName o |}.


(** * Properties *)

(** ** Strings *)

Lemma str_length_nonneg (s : jsstring) : 0 ≤ str_length s.
Proof. unfold str_length. lia. Qed.

Lemma str_length_nil_iff (s : jsstring) : str_length s = 0 ↔ s = [].
Proof.
  unfold str_length. destruct s as [|c s]; cbn [length]; split; intros H;
    try reflexivity; try discriminate; lia.
Qed.

Lemma str_length_app (s t : jsstring) :
  str_length (s ++ t) = str_length s + str_length t.
Proof. unfold str_length. rewrite length_app. lia. Qed.

Example slice_inside : slice (js "abcdefghij") 3 7 = js "defg".
Proof. reflexivity. Qed.

Example slice_negative_start : slice (js "abcdefghij") (-3) 20 = js "hij".
Proof. reflexivity. Qed.

(** ** [equalSizeChunk] *)

Section EqualSizeLoop.
Variables (text : jsstring) (chunkSize overlap : Z).

Lemma loop_S fuel st :
  loop text chunkSize overlap (S fuel) st
  = match loop_step text chunkSize overlap st with
    | Exit cs => Some cs
    | Continue st' => loop text chunkSize overlap fuel st'
    end.
Proof. reflexivity. Qed.

(** More fuel does not change a result. *)
Lemma loop_fuel_mono fuel fuel' st cs :
  (fuel ≤ fuel')%nat →
  loop text chunkSize overlap fuel st = Some cs →
  loop text chunkSize overlap fuel' st = Some cs.
Proof.
  revert fuel' st. induction fuel as [|fuel IH]; intros fuel' st Hle H.
  - discriminate.
  - destruct fuel' as [|fuel']; [lia|].
    cbn [loop] in *. destruct (loop_step text chunkSize overlap st).
    + exact H.
    + apply IH; [lia | exact H].
Qed.

(** So the chunk list a call returns is determined by its arguments. *)
Lemma equalSizeChunk_returns_unique cs cs' :
  equalSizeChunk_returns text chunkSize overlap cs →
  equalSizeChunk_returns text chunkSize overlap cs' →
  cs = cs'.
Proof.
  intros [f1 H1] [f2 H2]. unfold equalSizeChunk in *.
  destruct (loop text chunkSize overlap f1 (LoopState 0 [])) as [r1|] eqn:E1;
    [|discriminate].
  destruct (loop text chunkSize overlap f2 (LoopState 0 [])) as [r2|] eqn:E2;
    [|discriminate].
  cbn in H1, H2. injection H1 as ->. injection H2 as ->.
  apply (loop_fuel_mono _ (Nat.max f1 f2)) in E1; [|lia].
  apply (loop_fuel_mono _ (Nat.max f1 f2)) in E2; [|lia].
  congruence.
Qed.

(** With a positive overlap, a start position inside the text is
    followed by a start position inside the text: after the window is
    clamped to the end of the text, [end - overlap] is again before
    the end. *)
Lemma loop_step_stays_inside st :
  0 < overlap → start st < str_length text →
  ∃ st', loop_step text chunkSize overlap st = Continue st'
         ∧ start st' < str_length text.
Proof.
  intros Ho Hs. unfold loop_step.
  destruct (Z.ltb_spec (start st) (str_length text)) as [_|?]; [|lia].
  cbv zeta.
  destruct (Z.leb_spec (str_length text)
              (Z.min (start st + chunkSize) (str_length text) - overlap))
    as [Hge|Hlt]; [lia|].
  eexists. split; [reflexivity|]. cbn [start]. lia.
Qed.

Lemma loop_stays_inside fuel st :
  0 < overlap → start st < str_length text →
  loop text chunkSize overlap fuel st = None.
Proof.
  intros Ho. revert st. induction fuel as [|fuel IH]; intros st Hs.
  - reflexivity.
  - cbn [loop].
    destruct (loop_step_stays_inside st Ho Hs) as (st' & -> & Hs').
    apply IH, Hs'.
Qed.

Lemma equalSizeChunk_positive_overlap_diverges :
  text ≠ [] → 0 < overlap →
  equalSizeChunk_diverges text chunkSize overlap.
Proof.
  intros Ht Ho fuel. unfold equalSizeChunk.
  rewrite loop_stays_inside; [reflexivity | exact Ho |].
  cbn [start]. pose proof (str_length_nonneg text) as Hn.
  destruct (Z.eq_dec (str_length text) 0) as [H0|H0]; [|lia].
  apply str_length_nil_iff in H0. contradiction.
Qed.

(** On the empty text the loop is not entered. *)
Lemma equalSizeChunk_empty_text :
  text = [] → equalSizeChunk 1 text chunkSize overlap = Some (Return []).
Proof. intros ->. reflexivity. Qed.

(** *** Overlap zero or negative: the loop produces the windows *)

Lemma window_count_bounds :
  0 < stride chunkSize overlap →
  (Z.of_nat (window_count text chunkSize overlap) - 1) * stride chunkSize overlap
  < str_length text
  ∧ str_length text
    ≤ Z.of_nat (window_count text chunkSize overlap) * stride chunkSize overlap.
Proof.
  intros Hd. unfold window_count.
  set (d := stride chunkSize overlap) in *.
  pose proof (str_length_nonneg text) as HL.
  pose proof (Z.div_mod (str_length text + d - 1) d) as Hdm.
  pose proof (Z.mod_pos_bound (str_length text + d - 1) d Hd) as Hm.
  assert (0 ≤ (str_length text + d - 1) / d) as Hq
    by (apply Z.div_pos; lia).
  rewrite Z2Nat.id by exact Hq. nia.
Qed.

(** One pass from the start of window [k]: the window is pushed, and
    the loop is left exactly when the next window would start at or
    after the end of the text. *)
Lemma loop_step_window (k : Z) cs :
  0 < chunkSize → overlap ≤ 0 → 0 ≤ k →
  k * stride chunkSize overlap < str_length text →
  loop_step text chunkSize overlap (LoopState (k * stride chunkSize overlap) cs)
  = if str_length text <=? (k + 1) * stride chunkSize overlap
    then Exit (cs ++ [window text chunkSize overlap k])
    else Continue (LoopState ((k + 1) * stride chunkSize overlap)
                             (cs ++ [window text chunkSize overlap k])).
Proof.
  intros HS HO Hk Hlt. unfold loop_step, window, stride in *.
  cbn [start chunks].
  destruct (Z.ltb_spec (k * (chunkSize - overlap)) (str_length text)) as [_|?]; [|lia].
  cbv zeta.
  destruct (Z.leb_spec (str_length text)
              (Z.min (k * (chunkSize - overlap) + chunkSize) (str_length text) - overlap));
    destruct (Z.leb_spec (str_length text) ((k + 1) * (chunkSize - overlap)));
    try reflexivity; try lia.
  f_equal. f_equal. lia.
Qed.

Lemma loop_windows m : ∀ (k : nat) cs,
  0 < chunkSize → overlap ≤ 0 →
  (k + m = window_count text chunkSize overlap)%nat →
  loop text chunkSize overlap (S m)
       (LoopState (Z.of_nat k * stride chunkSize overlap) cs)
  = Some (cs ++ List.map (λ i, window text chunkSize overlap (Z.of_nat i)) (seq k m)).
Proof.
  induction m as [|m IH]; intros k cs HS HO Hkm;
    (assert (0 < stride chunkSize overlap) as Hd by (unfold stride; lia));
    destruct (window_count_bounds Hd) as [Hlo Hup].
  - cbn [loop seq List.map]. unfold loop_step. cbn [start chunks].
    destruct (Z.ltb_spec (Z.of_nat k * stride chunkSize overlap) (str_length text))
      as [Hlt|_].
    + rewrite <- Hkm in Hup. rewrite Nat.add_0_r in Hup. lia.
    + now rewrite app_nil_r.
  - assert (Z.of_nat k * stride chunkSize overlap < str_length text) as Hlt by nia.
    rewrite loop_S, loop_step_window by lia.
    cbn [seq List.map].
    destruct (Z.leb_spec (str_length text)
                ((Z.of_nat k + 1) * stride chunkSize overlap)) as [Hge|Hin].
    + destruct m as [|m]; [reflexivity|]. exfalso. nia.
    + destruct m as [|m]; [exfalso; nia|].
      replace (Z.of_nat k + 1) with (Z.of_nat (S k)) by lia.
      rewrite IH by (try assumption; lia).
      rewrite <- app_assoc. reflexivity.
Qed.

(** With a positive chunk size and an overlap that is zero or negative
    the call returns, and returns the windows in order. *)
Lemma equalSizeChunk_nonpositive_overlap :
  0 < chunkSize → overlap ≤ 0 →
  equalSizeChunk (S (window_count text chunkSize overlap)) text chunkSize overlap
  = Some (Return (windows text chunkSize overlap)).
Proof.
  intros HS HO. unfold equalSizeChunk, windows.
  pose proof (loop_windows (window_count text chunkSize overlap) 0 [] HS HO eq_refl) as H.
  cbn [Z.of_nat] in H. rewrite Z.mul_0_l in H. rewrite H. reflexivity.
Qed.
End EqualSizeLoop.

(** Without overlap and with a positive chunk size the call returns the
    windows [[i*S, i*S+S)] clamped to the text. *)
Lemma equalSizeChunk_zero_overlap_returns (text : jsstring) (chunkSize : Z) :
  0 < chunkSize →
  equalSizeChunk_returns text chunkSize 0 (windows text chunkSize 0).
Proof.
  intros HS. eexists. apply equalSizeChunk_nonpositive_overlap; lia.
Qed.

Lemma diverges_not_returns (text : jsstring) (chunkSize overlap : Z) cs :
  equalSizeChunk_diverges text chunkSize overlap →
  ¬ equalSizeChunk_returns text chunkSize overlap cs.
Proof. intros Hd [fuel H]. rewrite Hd in H. discriminate. Qed.

(** C1: on the code the claim holds only for overlap 0.  For every
    non-empty text and every configuration the claim admits with a
    positive overlap ([0 < O < S]) the loop never ends: once the window is
    clamped to the end of the text, [start = end - overlap] is again
    before the end, so the [break] is never taken and no chunk list is
    returned. *)
Theorem equalSizeChunk_overlap_never_returns
    (text : jsstring) (chunkSize overlap : Z) :
  text ≠ [] → 0 < chunkSize → 0 < overlap < chunkSize →
  equalSizeChunk_diverges text chunkSize overlap
  ∧ ∀ cs, ¬ equalSizeChunk_returns text chunkSize overlap cs.
Proof.
  intros Ht _ [Ho _].
  assert (equalSizeChunk_diverges text chunkSize overlap) as Hd
    by (apply equalSizeChunk_positive_overlap_diverges; assumption).
  split; [exact Hd|]. intros cs. apply diverges_not_returns, Hd.
Qed.

Lemma equalSizeChunk_overlap_never_returns_witness :
  equalSizeChunk_diverges (js "The quick brown fox.") 8 2
  ∧ ∀ cs, ¬ equalSizeChunk_returns (js "The quick brown fox.") 8 2 cs.
Proof.
  apply equalSizeChunk_overlap_never_returns; [discriminate | lia | lia].
Defined.

(** *** The loop on an engine with a greatest array length *)

Section LimitedLoop.
Variables (max_array_length : nat) (text : jsstring) (chunkSize overlap : Z).

Lemma loop_limited_S fuel st :
  loop_limited max_array_length text chunkSize overlap (S fuel) st
  = match loop_step_limited max_array_length text chunkSize overlap st with
    | StepExit cs => Some (Return cs)
    | StepThrow e => Some (Throw e)
    | StepContinue st' =>
        loop_limited max_array_length text chunkSize overlap fuel st'
    end.
Proof. reflexivity. Qed.

(** The array only grows. *)
Lemma loop_length_mono fuel : ∀ st cs,
  loop text chunkSize overlap fuel st = Some cs →
  (length (chunks st) ≤ length cs)%nat.
Proof.
  induction fuel as [|fuel IH]; intros st cs H; [discriminate|].
  rewrite loop_S in H. unfold loop_step in H.
  destruct (start st <? str_length text); [|injection H as <-; lia].
  cbv zeta in H.
  destruct (str_length text <=? _).
  - injection H as <-. rewrite length_app. cbn [length]. lia.
  - apply IH in H. cbn [chunks] in H. rewrite length_app in H.
    cbn [length] in H. lia.
Qed.

(** As long as the chunks fit in an array, the engine's limit is not
    felt: the call returns what it returns with unbounded arrays. *)
Lemma loop_limited_agrees fuel : ∀ st cs,
  loop text chunkSize overlap fuel st = Some cs →
  (length cs ≤ max_array_length)%nat →
  loop_limited max_array_length text chunkSize overlap fuel st = Some (Return cs).
Proof.
  induction fuel as [|fuel IH]; intros st cs H Hfit; [discriminate|].
  rewrite loop_S in H. rewrite loop_limited_S.
  unfold loop_step in H. unfold loop_step_limited, Array_push.
  destruct (start st <? str_length text); [|injection H as <-; reflexivity].
  cbv zeta in H. cbv zeta.
  destruct (Nat.ltb_spec (length (chunks st)) max_array_length) as [Hroom|Hfull].
  - destruct (str_length text <=? _); [injection H as <-; reflexivity|].
    apply IH; assumption.
  - exfalso. destruct (str_length text <=? _).
    + injection H as <-. rewrite length_app in Hfit. cbn [length] in Hfit. lia.
    + apply loop_length_mono in H. cbn [chunks] in H.
      rewrite length_app in H. cbn [length] in H. lia.
Qed.

(** With a positive overlap and a start inside the text, every pass
    pushes a chunk until the array is full; the next [push] fails. *)
Lemma loop_limited_overflow (k : nat) : ∀ st,
  0 < overlap → start st < str_length text →
  (length (chunks st) + k = max_array_length)%nat →
  (∀ fuel, (fuel ≤ k)%nat →
     loop_limited max_array_length text chunkSize overlap fuel st = None)
  ∧ loop_limited max_array_length text chunkSize overlap (S k) st
    = Some (Throw RangeError).
Proof.
  induction k as [|k IH]; intros st Ho Hs Hlen.
  - split.
    + intros fuel Hfuel. replace fuel with 0%nat by lia. reflexivity.
    + rewrite loop_limited_S. unfold loop_step_limited, Array_push.
      destruct (Z.ltb_spec (start st) (str_length text)); [|lia].
      cbv zeta.
      destruct (Nat.ltb_spec (length (chunks st)) max_array_length); [lia|].
      reflexivity.
  - assert (loop_step_limited max_array_length text chunkSize overlap st
            = StepContinue
                (LoopState (Z.min (start st + chunkSize) (str_length text) - overlap)
                   (chunks st ++ [slice text (start st)
                      (Z.min (start st + chunkSize) (str_length text))]))) as Hstep.
    { unfold loop_step_limited, Array_push.
      destruct (Z.ltb_spec (start st) (str_length text)); [|lia].
      cbv zeta.
      destruct (Nat.ltb_spec (length (chunks st)) max_array_length); [|lia].
      destruct (Z.leb_spec (str_length text)
                  (Z.min (start st + chunkSize) (str_length text) - overlap));
        [lia | reflexivity]. }
    destruct (IH (LoopState (Z.min (start st + chunkSize) (str_length text) - overlap)
                    (chunks st ++ [slice text (start st)
                       (Z.min (start st + chunkSize) (str_length text))])))
      as [Hrun Hthrow];
      [exact Ho | cbn [start]; lia
      | cbn [chunks]; rewrite length_app; cbn [length]; lia |].
    split.
    + intros [|fuel] Hfuel; [reflexivity|].
      rewrite loop_limited_S, Hstep. apply Hrun. lia.
    + rewrite loop_limited_S, Hstep. exact Hthrow.
Qed.
End LimitedLoop.

(** The same of the whole call. *)
Lemma equalSizeChunk_limited_agrees
    (max_array_length fuel : nat) (text : jsstring) (chunkSize overlap : Z)
    (cs : list jsstring) :
  equalSizeChunk fuel text chunkSize overlap = Some (Return cs) →
  (length cs ≤ max_array_length)%nat →
  equalSizeChunk_limited max_array_length fuel text chunkSize overlap
  = Some (Return cs).
Proof.
  unfold equalSizeChunk, equalSizeChunk_limited. intros H Hfit.
  destruct (loop text chunkSize overlap fuel (LoopState 0 [])) as [cs'|] eqn:E;
    [|discriminate].
  cbn in H. injection H as <-. now apply loop_limited_agrees.
Qed.

Lemma windows_length_eq (text : jsstring) (chunkSize overlap : Z) :
  length (windows text chunkSize overlap) = window_count text chunkSize overlap.
Proof. unfold windows. now rewrite length_map, length_seq. Qed.

(** With a positive chunk size and an overlap of zero or less the call
    returns the windows, if the engine's arrays can hold that many. *)
Lemma equalSizeChunk_limited_windows
    (max_array_length : nat) (text : jsstring) (chunkSize overlap : Z) :
  0 < chunkSize → overlap ≤ 0 →
  (window_count text chunkSize overlap ≤ max_array_length)%nat →
  equalSizeChunk_limited max_array_length
    (S (window_count text chunkSize overlap)) text chunkSize overlap
  = Some (Return (windows text chunkSize overlap)).
Proof.
  intros HS HO Hfit. apply equalSizeChunk_limited_agrees.
  - apply equalSizeChunk_nonpositive_overlap; assumption.
  - now rewrite windows_length_eq.
Qed.




Example windows_negative_overlap :
  windows (js "abcdefghij") 4 (-1) = [js "abcd"; js "fghi"].
Proof. vm_compute. reflexivity. Qed.

Example equalSizeChunk_scenario_5 :
  equalSizeChunk 2 (js "x") 5 0 = Some (Return [js "x"]).
Proof. vm_compute. reflexivity. Qed.

(** C3: on "abcdefghij" with chunkSize 4 and overlap 1 the call does not
    return ["abcd","defg","ghij","j"].  Three passes of the loop push
    "abcd", "defg", "ghij", the start going 0, 3, 6, 9; from start 9 every
    pass pushes another "j" and leaves the start at 9, so the call never
    returns. *)
Theorem equalSizeChunk_scenario_1_never_returns :
  passes (js "abcdefghij") 4 1 3 (LoopState 0 [])
  = Continue (LoopState 9 [js "abcd"; js "defg"; js "ghij"])
  ∧ (∀ cs, loop_step (js "abcdefghij") 4 1 (LoopState 9 cs)
           = Continue (LoopState 9 (cs ++ [js "j"])))
  ∧ equalSizeChunk_diverges (js "abcdefghij") 4 1
  ∧ ¬ equalSizeChunk_returns (js "abcdefghij") 4 1
        [js "abcd"; js "defg"; js "ghij"; js "j"].
Proof.
  assert (equalSizeChunk_diverges (js "abcdefghij") 4 1) as Hd
    by (apply equalSizeChunk_positive_overlap_diverges; [discriminate | lia]).
  split; [vm_compute; reflexivity|].
  split; [intros cs; reflexivity|].
  split; [exact Hd|]. apply diverges_not_returns, Hd.
Qed.

(** ** [sentenceChunk] *)

Example split_sentences_scenario_2 :
  split_sentences (js "A. B. C.") = [js "A."; js "B."; js "C."].
Proof. vm_compute. reflexivity. Qed.

Example split_sentences_runs_of_space :
  split_sentences (js "One.  Two?   Three! Four")
  = [js "One."; js "Two?"; js "Three!"; js "Four"].
Proof. vm_compute. reflexivity. Qed.

Example split_sentences_needs_punctuation :
  split_sentences (js "no stop here") = [js "no stop here"].
Proof. vm_compute. reflexivity. Qed.

(** [split] never runs short of passes: one more than [length s - q]
    changes nothing. *)
Lemma boundary_at_after (s : jsstring) (q e : nat) :
  boundary_at s q = Some e → (q < e)%nat.
Proof.
  unfold boundary_at. destruct q as [|q]; [discriminate|].
  destruct (s !! q) as [c|]; [|discriminate].
  destruct (is_terminal c); [|discriminate].
  destruct (white_space_run (drop (S q) s)); [discriminate|].
  intros [= <-]. lia.
Qed.

Lemma split_loop_fuel (fuel : nat) (s : jsstring) : ∀ p q : nat,
  (length s - q ≤ fuel)%nat →
  split_loop (S fuel) s p q = split_loop fuel s p q.
Proof.
  induction fuel as [|fuel IH]; intros p q Hq.
  - cbn [split_loop].
    destruct (Nat.ltb_spec q (length s)); [lia | reflexivity].
  - change (split_loop (S (S fuel)) s p q)
      with (if (q <? length s)%nat then
              match boundary_at s q with
              | None => split_loop (S fuel) s p (S q)
              | Some e =>
                  if (e =? p)%nat then split_loop (S fuel) s p (S q)
                  else substring_nat s p q :: split_loop (S fuel) s e e
              end
            else [substring_nat s p (length s)]).
    change (split_loop (S fuel) s p q)
      with (if (q <? length s)%nat then
              match boundary_at s q with
              | None => split_loop fuel s p (S q)
              | Some e =>
                  if (e =? p)%nat then split_loop fuel s p (S q)
                  else substring_nat s p q :: split_loop fuel s e e
              end
            else [substring_nat s p (length s)]).
    destruct (Nat.ltb_spec q (length s)); [|reflexivity].
    destruct (boundary_at s q) as [e|] eqn:Hb.
    + apply boundary_at_after in Hb.
      destruct (e =? p)%nat; [apply IH; lia|].
      f_equal. apply IH. lia.
    + apply IH. lia.
Qed.

Lemma split_loop_extra_fuel (extra : nat) (s : jsstring) :
  split_loop (length s + extra) s 0 0 = split_loop (length s) s 0 0.
Proof.
  induction extra as [|extra IH]; [now rewrite Nat.add_0_r|].
  rewrite Nat.add_succ_r, split_loop_fuel by lia. exact IH.
Qed.

Lemma trim_start_length (s : jsstring) : (length (trim_start s) ≤ length s)%nat.
Proof.
  induction s as [|c s IH]; cbn [trim_start length]; [lia|].
  destruct (is_white_space c); cbn [length]; lia.
Qed.

Lemma trim_length (s : jsstring) : str_length (trim s) ≤ str_length s.
Proof.
  unfold trim, str_length. rewrite length_rev.
  pose proof (trim_start_length (rev (trim_start s))) as H1.
  rewrite length_rev in H1. pose proof (trim_start_length s). lia.
Qed.

Section SentenceBound.
Variables (limit : Z) (sentences : list jsstring).

Lemma push_within (chunks : list jsstring) (cur : jsstring) :
  List.Forall (chunk_within limit sentences) chunks →
  cur = [] ∨ str_length cur ≤ limit + 1 ∨ In cur sentences →
  List.Forall (chunk_within limit sentences)
    (if str_truthy cur then chunks ++ [trim cur] else chunks).
Proof.
  intros Hc Hcur. destruct cur as [|x cur]; [exact Hc|]. cbn [str_truthy].
  apply Forall_app. split; [exact Hc|]. constructor; [|constructor].
  destruct Hcur as [?|[Hlen|Hin]]; [discriminate| |].
  - left. pose proof (trim_length (x :: cur)). lia.
  - right. eauto.
Qed.

Lemma sentence_step_within (st : sentence_state) (s : jsstring) :
  running_within limit sentences st → In s sentences →
  running_within limit sentences (sentence_step limit st s).
Proof.
  destruct st as [chunks cur]. intros [Hc Hcur] Hs. unfold sentence_step.
  destruct (Z.leb_spec (str_length (cur ++ s)) limit) as [Hle|Hgt].
  - split; [exact Hc|]. cbn [snd]. right; left.
    rewrite str_length_app in Hle. rewrite !str_length_app.
    destruct (str_truthy cur);
      [change (str_length (js " ")) with 1 | change (str_length (js "")) with 0];
      lia.
  - split; cbn [fst snd]; [apply push_within; assumption | right; right; exact Hs].
Qed.

Lemma fold_sentence_step_within (l : list jsstring) : ∀ st,
  (∀ s, In s l → In s sentences) → running_within limit sentences st →
  running_within limit sentences (fold_left (sentence_step limit) l st).
Proof.
  induction l as [|s l IH]; intros st Hl Hst; [exact Hst|].
  cbn [fold_left]. apply IH.
  - intros s' Hs'. apply Hl. right. exact Hs'.
  - apply sentence_step_within; [exact Hst | apply Hl; left; reflexivity].
Qed.

(** Every chunk is at most [limit + 1] long, the one character being the
    separator the size test leaves out, unless it is a single sentence. *)
Lemma chunk_sentences_within :
  List.Forall (chunk_within limit sentences) (chunk_sentences limit sentences).
Proof.
  unfold chunk_sentences.
  pose proof (fold_sentence_step_within sentences ([], [])
                (λ s H, H) (conj (Forall_nil _) (or_introl eq_refl))) as H.
  destruct (fold_left (sentence_step limit) sentences ([], [])) as [chunks cur].
  destruct H as [Hc Hcur]. apply push_within; assumption.
Qed.
End SentenceBound.

(** Splitting the empty string gives one empty sentence. *)
Lemma split_sentences_empty : split_sentences [] = [[]].
Proof. reflexivity. Qed.

(** An empty sentence met with an empty running chunk changes nothing,
    whichever branch the size test selects. *)
Lemma sentence_step_empty (limit : Z) (chunks : list jsstring) :
  sentence_step limit (chunks, []) [] = (chunks, []).
Proof.
  unfold sentence_step. cbn [app str_truthy].
  destruct (str_length [] <=? limit); reflexivity.
Qed.

(** C9: [sentenceChunk] applied to the empty string returns the empty
    chunk collection, for every facade instance and every per-call
    configuration. *)
Theorem sentenceChunk_empty_text (this : Chunker) (o : options) :
  sentenceChunk this [] o = [].
Proof.
  unfold sentenceChunk, chunk_sentences. rewrite split_sentences_empty.
  cbn [fold_left]. rewrite sentence_step_empty. reflexivity.
Qed.

(** C4: on the code the bound fails.  The size test measures
    [currentChunk + sentence] without the separating space, so on
    "A. B. C." with chunkSize 4 the sentences "A." and "B." (4 characters
    together) are joined into the chunk "A. B." of 5 characters; the call
    returns ["A. B."; "C."], not ["A."; "B."; "C."]. *)
Theorem sentenceChunk_scenario_2_exceeds_bound (this : Chunker) :
  sentenceChunk this (js "A. B. C.") (Options (Some 4) None None None None)
  = [js "A. B."; js "C."]
  ∧ sentence_step 4 ([], js "A.") (js "B.") = ([], js "A. B.")
  ∧ str_length (js "A. B.") = 5.
Proof.
  split; [|split]; vm_compute; reflexivity.
Qed.

(** ** Option merging *)

(** A supplied number other than 0 is used. *)
Lemma or_num_supplied (z d : Z) : z ≠ 0 → or_num (Some z) d = z.
Proof.
  intros Hz. unfold or_num. destruct (Z.eqb_spec z 0); [contradiction | reflexivity].
Qed.

(** A field left out falls back. *)
Lemma or_num_unspecified (d : Z) : or_num None d = d.
Proof. reflexivity. Qed.

(** A supplied 0 falls back as well. *)
Lemma or_num_zero (d : Z) : or_num (Some 0) d = d.
Proof. reflexivity. Qed.

(** Every delegating entry point except [tokenChunk] builds its splitter
    with the caller's non-zero [chunkSize] and [chunkOverlap], and with
    the instance defaults for the ones left out. *)
Lemma delegating_entry_points_merge (this : Chunker) (o : options) (delim : jsstring) :
  let size := or_num (opt_chunkSize o) (defaultChunkSize this) in
  let over := or_num (opt_chunkOverlap o) (defaultChunkOverlap this) in
  Forall (λ s, splitter_chunkSize s = size ∧ splitter_chunkOverlap s = over)
    [recursiveCharacterChunk_splitter this o; characterChunk_splitter this o;
     markdownChunk_splitter this o; semanticChunk_splitter this o;
     delimiterChunk_splitter this delim o].
Proof.
  cbv zeta. repeat (constructor; [split; reflexivity|]). constructor.
Qed.

(** [tokenChunk] falls back to its own constants, not to the instance. *)
Lemma tokenChunk_fallback (o : options) :
  splitter_chunkSize (tokenChunk_splitter o) = or_num (opt_chunkSize o) 100
  ∧ splitter_chunkOverlap (tokenChunk_splitter o) = or_num (opt_chunkOverlap o) 20.
Proof. split; reflexivity. Qed.

(** C8: on the code a supplied 0 is not used.  [new Chunker({chunkOverlap:
    0})] has default overlap 200; a per-call [chunkOverlap: 0] makes every
    delegating entry point build its splitter with the fallback overlap
    (the instance default, or 20 for [tokenChunk]); and a per-call
    [chunkSize: 0] makes [sentenceChunk] use the instance default. *)
Theorem supplied_zero_is_not_used :
  defaultChunkOverlap (new_Chunker (Options None (Some 0) None None None)) = 200
  ∧ (∀ this size delim,
       let o := Options size (Some 0) None None None in
       Forall (λ s, splitter_chunkOverlap s = defaultChunkOverlap this)
         [recursiveCharacterChunk_splitter this o; characterChunk_splitter this o;
          markdownChunk_splitter this o; semanticChunk_splitter this o;
          delimiterChunk_splitter this delim o]
       ∧ splitter_chunkOverlap (tokenChunk_splitter o) = 20)
  ∧ splitter_chunkOverlap
      (recursiveCharacterChunk_splitter
         (new_Chunker (Options (Some 150) (Some 50) None None None))
         (Options None (Some 0) None None None)) = 50
  ∧ (∀ this text,
       sentenceChunk this text (Options (Some 0) None None None None)
       = sentenceChunk this text no_options).
Proof.
  split; [reflexivity|]. split; [|split; [reflexivity | intros; reflexivity]].
  intros this size delim o. split; [|reflexivity].
  repeat (constructor; [reflexivity|]). constructor.
Qed.

(** ** [getChunkStats] *)

(** C5, as stated, fails: on the empty collection [getChunkStats] does
    not fail with EmptyInputError, it returns a statistics record. *)
Lemma getChunkStats_empty_does_not_throw :
  getChunkStats [] ≠ Throw EmptyInputError
  ∧ ∃ stats, getChunkStats [] = Return stats.
Proof.
  split; [discriminate|]. eexists. reflexivity.
Qed.

(** C5, amended: [getChunkStats] applied to an empty chunk collection
    does not fail; it returns the record with totalChunks 0,
    totalCharacters 0, averageChunkSize NaN, minChunkSize Infinity,
    maxChunkSize -Infinity and no chunk sizes. *)
Theorem getChunkStats_empty :
  getChunkStats []
  = Return {| Statistics.totalChunks := 0;
              Statistics.totalCharacters := 0;
              Statistics.averageChunkSize := NaN;
              Statistics.minChunkSize := PosInf;
              Statistics.maxChunkSize := NegInf;
              Statistics.chunkSizes := [] |}.
Proof. reflexivity. Qed.

Lemma fold_left_add_sum (l : list Z) (a : Z) :
  fold_left (λ sum len, sum + len) l a = a + sum_sizes l.
Proof.
  revert a. induction l as [|x l IH]; intros a; cbn [fold_left sum_sizes fold_right].
  - lia.
  - rewrite IH. unfold sum_sizes. lia.
Qed.


Lemma fold_left_max_spec (l : list Z) (x : Z) :
  In (fold_left Z.max l x) (x :: l)
  ∧ List.Forall (λ y, y ≤ fold_left Z.max l x) (x :: l).
Proof.
  revert x. induction l as [|y l IH]; intros x; cbn [fold_left].
  - split; [left; reflexivity|]. constructor; [lia | constructor].
  - destruct (IH (Z.max x y)) as [Hin Hall].
    apply Forall_cons_iff in Hall. destruct Hall as [Hhd Htl]. split.
    + destruct Hin as [Heq|Hin].
      * rewrite <- Heq. destruct (Z.max_spec x y) as [[_ ->]|[_ ->]];
          [right; left | left]; reflexivity.
      * right; right; exact Hin.
    + constructor; [lia|]. constructor; [lia | exact Htl].
Qed.




(** Within the engine's argument limit the spread calls go through, and
    beyond it the first of them fails. *)
Lemma getChunkStats_limited_within (max_arguments : nat) (chunks : list jsstring) :
  (length chunks ≤ max_arguments)%nat →
  getChunkStats_limited max_arguments chunks = getChunkStats chunks.
Proof.
  intros Hfit. unfold getChunkStats_limited, getChunkStats, spread_call.
  rewrite length_map.
  destruct (Nat.ltb_spec max_arguments (length chunks)); [lia | reflexivity].
Qed.

Lemma getChunkStats_limited_beyond (max_arguments : nat) (chunks : list jsstring) :
  (max_arguments < length chunks)%nat →
  getChunkStats_limited max_arguments chunks = Throw RangeError.
Proof.
  intros Hbig. unfold getChunkStats_limited, spread_call.
  rewrite length_map.
  destruct (Nat.ltb_spec max_arguments (length chunks)); [reflexivity | lia].
Qed.



Example getChunkStats_three_chunks :
  getChunkStats [js "ab"; js "abcdef"; js "abc"]
  = Return {| Statistics.totalChunks := 3;
              Statistics.totalCharacters := 11;
              Statistics.averageChunkSize := Num 4;
              Statistics.minChunkSize := Num 2;
              Statistics.maxChunkSize := Num 6;
              Statistics.chunkSizes := [2; 6; 3] |}.
Proof. vm_compute. reflexivity. Qed.

Example getChunkStats_tie_rounds_up :
  Statistics.averageChunkSize <$>
    (match getChunkStats [js "ab"; js "abc"] with
     | Return r => Some r
     | Throw _ => None
     end) = Some (Num 3).
Proof. vm_compute. reflexivity. Qed.

(** ** [validateChunks] *)

(** The length of a filtered array is the number of elements passing
    the test. *)
Lemma length_filter_count (p : jsstring → bool) (chunks : list jsstring) :
  Z.of_nat (length (List.filter p chunks)) = count_chunks p chunks.
Proof.
  induction chunks as [|c chunks IH]; cbn [List.filter count_chunks].
  - reflexivity.
  - destruct (p c); cbn [length]; lia.
Qed.

(** Every chunk is counted on exactly one side of the bound. *)
Lemma count_chunks_partition (maxSize : Z) (chunks : list jsstring) :
  count_chunks (λ chunk, str_length chunk <=? maxSize) chunks
  + count_chunks (λ chunk, maxSize <? str_length chunk) chunks
  = Z.of_nat (length chunks).
Proof.
  induction chunks as [|c chunks IH]; cbn [count_chunks length].
  - reflexivity.
  - destruct (Z.leb_spec (str_length c) maxSize);
      destruct (Z.ltb_spec maxSize (str_length c)); lia.
Qed.

(** The marked-then-filtered index array holds the positions of the
    oversized chunks; the mark -1 never collides with a position. *)
Lemma marked_indices_from (maxSize : Z) (chunks : list jsstring) : ∀ k : nat,
  List.filter (λ index, negb (index =? -1))
    (imap (λ index chunk,
             if maxSize <? str_length chunk then Z.of_nat (k + index) else -1)
          chunks)
  = oversized_from maxSize k chunks.
Proof.
  induction chunks as [|c chunks IH]; intros k.
  - reflexivity.
  - rewrite imap_cons. cbn [List.filter oversized_from].
    rewrite Nat.add_0_r.
    assert (imap ((λ index chunk,
                     if maxSize <? str_length chunk
                     then Z.of_nat (k + index) else -1) ∘ S) chunks
            = imap (λ index chunk,
                      if maxSize <? str_length chunk
                      then Z.of_nat (S k + index) else -1) chunks) as ->.
    { apply imap_ext. intros i x _. cbn. now rewrite Nat.add_succ_r. }
    rewrite IH.
    destruct (maxSize <? str_length c); [|reflexivity].
    destruct (Z.eqb_spec (Z.of_nat k) (-1)); [lia | reflexivity].
Qed.

(** [oversized_from] lists exactly the positions of the oversized
    chunks ... *)
Lemma oversized_from_In (maxSize : Z) (chunks : list jsstring) : ∀ (k : nat) (i : Z),
  In i (oversized_from maxSize k chunks)
  ↔ ∃ (n : nat) (c : jsstring),
      i = Z.of_nat (k + n) ∧ chunks !! n = Some c ∧ maxSize < str_length c.
Proof.
  induction chunks as [|c chunks IH]; intros k i; cbn [oversized_from].
  - split; [intros [] | intros (n & c & _ & H & _); discriminate].
  - split.
    + intros H.
      assert (In i (oversized_from maxSize (S k) chunks)
              ∨ (i = Z.of_nat k ∧ maxSize < str_length c)) as [Hin|[-> Hc]].
      { destruct (Z.ltb_spec maxSize (str_length c)); [|left; exact H].
        destruct H as [<-|H]; [right; split; [reflexivity | assumption] | left; exact H]. }
      * apply IH in Hin. destruct Hin as (n & c' & -> & Hl & Hc).
        exists (S n), c'. split; [f_equal; lia | split; assumption].
      * exists 0%nat, c. split; [f_equal; lia | split; [reflexivity | assumption]].
    + intros (n & c' & -> & Hl & Hc). destruct n as [|n].
      * cbn in Hl. injection Hl as <-.
        destruct (Z.ltb_spec maxSize (str_length c)); [|lia].
        left. f_equal. lia.
      * cbn in Hl.
        assert (In (Z.of_nat (k + S n)) (oversized_from maxSize (S k) chunks)) as Hin.
        { apply IH. exists n, c'. split; [f_equal; lia | split; assumption]. }
        destruct (maxSize <? str_length c); [right|]; exact Hin.
Qed.

(** ... in increasing order. *)
Lemma oversized_from_sorted (maxSize : Z) (chunks : list jsstring) : ∀ k : nat,
  StronglySorted Z.lt (oversized_from maxSize k chunks).
Proof.
  induction chunks as [|c chunks IH]; intros k; cbn [oversized_from].
  - constructor.
  - destruct (maxSize <? str_length c); [|apply IH].
    constructor; [apply IH|].
    apply List.Forall_forall. intros i Hi.
    apply oversized_from_In in Hi. destruct Hi as (n & _ & -> & _). lia.
Qed.

(** C6: for every chunk collection and integer bound, [validateChunks]
    reports totalChunks = the number of chunks, validChunks = the number
    of chunks of length <= maxSize, oversizedChunks = the number of chunks
    of length > maxSize, the two adding up to totalChunks,
    oversizedIndices = exactly the 0-based positions of the chunks longer
    than maxSize, in increasing order, and isValid = true iff
    oversizedChunks = 0; and [validateChunks(["ab","abcdef"], 3)] is
    {isValid: false, totalChunks: 2, validChunks: 1, oversizedChunks: 1,
    oversizedIndices: [1]}. *)
Theorem validateChunks_report (chunks : list jsstring) (maxSize : Z) :
  let r := validateChunks chunks maxSize in
  Validation.totalChunks r = Z.of_nat (length chunks)
  ∧ Validation.validChunks r
    = count_chunks (λ chunk, str_length chunk <=? maxSize) chunks
  ∧ Validation.oversizedChunks r
    = count_chunks (λ chunk, maxSize <? str_length chunk) chunks
  ∧ Validation.validChunks r + Validation.oversizedChunks r
    = Validation.totalChunks r
  ∧ Validation.oversizedIndices r = oversized_from maxSize 0 chunks
  ∧ (∀ i, In i (Validation.oversizedIndices r)
          ↔ ∃ (n : nat) (c : jsstring),
              i = Z.of_nat n ∧ chunks !! n = Some c ∧ maxSize < str_length c)
  ∧ StronglySorted Z.lt (Validation.oversizedIndices r)
  ∧ (Validation.isValid r = true ↔ Validation.oversizedChunks r = 0)
  ∧ validateChunks [js "ab"; js "abcdef"] 3
    = {| Validation.isValid := false;
         Validation.totalChunks := 2;
         Validation.validChunks := 1;
         Validation.oversizedChunks := 1;
         Validation.oversizedIndices := [1] |}.
Proof.
  intros r.
  assert (Validation.oversizedIndices r = oversized_from maxSize 0 chunks) as Hidx
    by (subst r; cbn [validateChunks Validation.oversizedIndices];
        apply (marked_indices_from maxSize chunks 0)).
  subst r. cbn [validateChunks Validation.totalChunks Validation.validChunks
                  Validation.oversizedChunks Validation.isValid] in *.
  rewrite !length_filter_count.
  repeat split; try reflexivity.
  - apply count_chunks_partition.
  - exact Hidx.
  - rewrite Hidx. intros H. apply oversized_from_In in H. exact H.
  - rewrite Hidx. intros H. apply oversized_from_In. exact H.
  - rewrite Hidx. apply oversized_from_sorted.
  - apply Z.eqb_eq.
  - apply Z.eqb_eq.
Qed.

(** *** [validateChunks] on the store *)

Section Store.
Implicit Types (h : store) (elems : list value).

(** Allocation leaves the arrays already in the store as they are. *)
Lemma lookup_store_extend h (new : store) (a : nat) elems :
  h !! a = Some elems → (h ++ new) !! a = Some elems.
Proof. intros H. now apply lookup_app_l_Some. Qed.

Lemma bind_run {A B} (m : M A) (k : A → M B) h (a : A) h' :
  m h = Some (a, h') → (a' ← m; k a') h = k a h'.
Proof. intros H. unfold mbind, M_bind. now rewrite H. Qed.

Lemma read_run h (a : nat) elems :
  h !! a = Some elems → read a h = Some (elems, h).
Proof. intros H. unfold read. now rewrite H. Qed.

Lemma Array_filter_run (p : value → bool) h (a : nat) elems :
  h !! a = Some elems →
  Array_filter p a h = Some (length h, h ++ [List.filter p elems]).
Proof.
  intros H. unfold Array_filter.
  rewrite (bind_run _ _ _ _ _ (read_run _ _ _ H)). reflexivity.
Qed.

Lemma Array_map_run (f : value → Z → value) h (a : nat) elems :
  h !! a = Some elems →
  Array_map f a h
  = Some (length h, h ++ [imap (λ index v, f v (Z.of_nat index)) elems]).
Proof.
  intros H. unfold Array_map.
  rewrite (bind_run _ _ _ _ _ (read_run _ _ _ H)). reflexivity.
Qed.

Lemma Array_length_run h (a : nat) elems :
  h !! a = Some elems →
  Array_length a h = Some (Z.of_nat (length elems), h).
Proof.
  intros H. unfold Array_length.
  rewrite (bind_run _ _ _ _ _ (read_run _ _ _ H)). reflexivity.
Qed.

(** An array allocated on top of [h] is found at its offset. *)
Lemma lookup_allocated h (new : store) (i : nat) :
  (h ++ new) !! (length h + i)%nat = new !! i.
Proof. rewrite lookup_app_r by lia. f_equal. lia. Qed.

Ltac store_lookup :=
  first [ apply list_lookup_middle; reflexivity
        | rewrite lookup_allocated; reflexivity ].

(** A call extends the store by the arrays it allocates and changes
    nothing else. *)
Lemma validateChunks_store_run h (chunks : nat) elems (maxSize : Z) :
  h !! chunks = Some elems →
  validateChunks_store chunks maxSize h
  = Some ({| obj_isValid :=
               Z.of_nat (length (List.filter (length_gt maxSize) elems)) =? 0;
             obj_totalChunks := Z.of_nat (length elems);
             obj_validChunks :=
               Z.of_nat (length (List.filter (length_le maxSize) elems));
             obj_oversizedChunks :=
               Z.of_nat (length (List.filter (length_gt maxSize) elems));
             obj_oversizedIndices := (length h + 3)%nat |},
          h ++ allocated maxSize elems).
Proof.
  intros H. unfold validateChunks_store, allocated.
  rewrite (bind_run _ _ _ _ _ (Array_filter_run _ _ _ _ H)).
  assert (∀ new, (h ++ new) !! chunks = Some elems) as Hext
    by (intros new; now apply lookup_store_extend).
  rewrite (bind_run _ _ _ _ _ (Array_filter_run _ _ _ _ (Hext _))).
  rewrite <- !app_assoc, ?length_app. cbn [app length].
  erewrite bind_run; [|apply Array_length_run; store_lookup].
  rewrite (bind_run _ _ _ _ _ (Array_length_run _ _ _ (Hext _))).
  erewrite bind_run; [|apply Array_length_run; store_lookup].
  rewrite (bind_run _ _ _ _ _ (Array_map_run _ _ _ _ (Hext _))).
  rewrite <- !app_assoc, ?length_app. cbn [app length].
  erewrite bind_run; [|apply Array_filter_run; store_lookup].
  rewrite <- !app_assoc, ?length_app. cbn [app length].
  unfold mret, M_ret. repeat f_equal; lia.
Qed.
End Store.

Lemma filter_length_gt_strings (maxSize : Z) (cs : list jsstring) :
  List.filter (length_gt maxSize) (VStr <$> cs)
  = VStr <$> List.filter (λ chunk, maxSize <? str_length chunk) cs.
Proof.
  induction cs as [|c cs IH]; [reflexivity|].
  cbn [fmap list_fmap List.filter length_gt] in *.
  destruct (maxSize <? str_length c); cbn [fmap list_fmap]; now rewrite IH.
Qed.

Lemma filter_length_le_strings (maxSize : Z) (cs : list jsstring) :
  List.filter (length_le maxSize) (VStr <$> cs)
  = VStr <$> List.filter (λ chunk, str_length chunk <=? maxSize) cs.
Proof.
  induction cs as [|c cs IH]; [reflexivity|].
  cbn [fmap list_fmap List.filter length_le] in *.
  destruct (str_length c <=? maxSize); cbn [fmap list_fmap]; now rewrite IH.
Qed.

(** The index array built on the store holds the numbers the pure
    function computes. *)
Lemma numbers_of_marked (maxSize : Z) (cs : list jsstring) : ∀ g : nat → Z,
  numbers_of
    (List.filter not_minus_one
       (imap (λ index v, if length_gt maxSize v then VNum (g index) else VNum (-1))
             (VStr <$> cs)))
  = List.filter (λ index, negb (index =? -1))
      (imap (λ index chunk, if maxSize <? str_length chunk then g index else -1) cs).
Proof.
  induction cs as [|c cs IH]; intros g; [reflexivity|].
  cbn [fmap list_fmap]. rewrite !imap_cons.
  cbn [List.filter length_gt].
  specialize (IH (g ∘ S)). cbn [fmap] in IH.
  destruct (maxSize <? str_length c); cbn [not_minus_one].
  - destruct (g 0%nat =? -1); cbn [negb numbers_of omap]; [exact IH|].
    unfold numbers_of in *. cbn [omap list_omap]. f_equal. exact IH.
  - cbn [Z.eqb negb]. exact IH.
Qed.

Lemma read_validation_run (h : store) (chunks : nat) (cs : list jsstring)
    (maxSize : Z) (r : validation_object) (h' : store) :
  h !! chunks = Some (VStr <$> cs) →
  validateChunks_store chunks maxSize h = Some (r, h') →
  h' = h ++ allocated maxSize (VStr <$> cs)
  ∧ ∀ later : store,
      read_validation (h' ++ later) r = Some (validateChunks cs maxSize).
Proof.
  intros H Hrun. rewrite (validateChunks_store_run _ _ _ _ H) in Hrun.
  injection Hrun as <- <-. split; [reflexivity|]. intros later.
  unfold read_validation. cbn [obj_oversizedIndices].
  rewrite <- app_assoc, lookup_allocated. unfold allocated.
  cbn [app lookup list_lookup mbind option_bind].
  cbn [obj_isValid obj_totalChunks obj_validChunks obj_oversizedChunks].
  rewrite (numbers_of_marked maxSize cs Z.of_nat).
  rewrite filter_length_gt_strings, filter_length_le_strings, !length_fmap.
  reflexivity.
Qed.

(** C10: [validateChunks] is pure and idempotent.  Called on a reference
    to an array of strings it returns, allocating only fresh arrays:
    every array of the store before the call, the chunk collection
    included, has the same elements after it; and a second call on the
    same collection and bound returns a result identical in content to
    the first (both are the report computed from the elements alone),
    leaving the first result as it was. *)
Theorem validateChunks_pure_idempotent
    (h : store) (chunks : nat) (cs : list jsstring) (maxSize : Z) :
  h !! chunks = Some (VStr <$> cs) →
  ∃ r1 h1 r2 h2,
    validateChunks_store chunks maxSize h = Some (r1, h1)
    ∧ validateChunks_store chunks maxSize h1 = Some (r2, h2)
    ∧ (∀ (a : nat) elems,
         h !! a = Some elems → h1 !! a = Some elems ∧ h2 !! a = Some elems)
    ∧ h1 !! chunks = Some (VStr <$> cs)
    ∧ h2 !! chunks = Some (VStr <$> cs)
    ∧ read_validation h1 r1 = Some (validateChunks cs maxSize)
    ∧ read_validation h2 r2 = Some (validateChunks cs maxSize)
    ∧ read_validation h2 r1 = read_validation h1 r1.
Proof.
  intros H.
  pose proof (validateChunks_store_run h chunks _ maxSize H) as Hrun1.
  destruct (read_validation_run _ _ _ _ _ _ H Hrun1) as [_ Hread1].
  set (h1 := h ++ allocated maxSize (VStr <$> cs)) in *.
  assert (h1 !! chunks = Some (VStr <$> cs)) as H1
    by (now apply lookup_store_extend).
  pose proof (validateChunks_store_run h1 chunks _ maxSize H1) as Hrun2.
  destruct (read_validation_run _ _ _ _ _ _ H1 Hrun2) as [_ Hread2].
  set (h2 := h1 ++ allocated maxSize (VStr <$> cs)) in *.
  do 4 eexists.
  split; [exact Hrun1|]. split; [exact Hrun2|].
  split; [|split; [exact H1|split; [now apply lookup_store_extend|]]].
  - intros a elems Ha. split; subst h2 h1.
    + now apply lookup_store_extend.
    + now apply lookup_store_extend, lookup_store_extend.
  - pose proof (Hread1 []) as R1. rewrite app_nil_r in R1.
    pose proof (Hread2 []) as R2. rewrite app_nil_r in R2.
    split; [exact R1|]. split; [exact R2|].
    rewrite R1. apply Hread1.
Qed.

Lemma validateChunks_pure_idempotent_witness :
  let h : store := [[VStr (js "ab"); VStr (js "abcdef")]] in
  ∃ r1 h1 r2 h2,
    validateChunks_store 0%nat 3 h = Some (r1, h1)
    ∧ validateChunks_store 0%nat 3 h1 = Some (r2, h2)
    ∧ (∀ (a : nat) elems,
         h !! a = Some elems → h1 !! a = Some elems ∧ h2 !! a = Some elems)
    ∧ h1 !! 0%nat = Some (VStr <$> [js "ab"; js "abcdef"])
    ∧ h2 !! 0%nat = Some (VStr <$> [js "ab"; js "abcdef"])
    ∧ read_validation h1 r1 = Some (validateChunks [js "ab"; js "abcdef"] 3)
    ∧ read_validation h2 r2 = Some (validateChunks [js "ab"; js "abcdef"] 3)
    ∧ read_validation h2 r1 = read_validation h1 r1.
Proof.
  apply (validateChunks_pure_idempotent
           [[VStr (js "ab"); VStr (js "abcdef")]] 0 [js "ab"; js "abcdef"] 3).
  reflexivity.
Defined.

(** * Further properties of the code *)

(** ** [equalSizeChunk]: when it returns *)

Section EqualSizeTermination.
Variables (text : jsstring) (chunkSize overlap : Z).



End EqualSizeTermination.


(** ** [equalSizeChunk]: the chunks it returns *)

Lemma take_take_drop_add {A} (l : list A) (a b : nat) :
  take a l ++ take b (drop a l) = take (a + b) l.
Proof.
  revert l. induction a as [|a IH]; intros l; [reflexivity|].
  destruct l as [|x l]; cbn; [destruct b; reflexivity | now rewrite IH].
Qed.

Section EqualSizeWindows.
Variables (text : jsstring) (chunkSize overlap : Z).
Hypotheses (Hsize : 0 < chunkSize) (Hoverlap : overlap ≤ 0).

(** A window that starts inside the text is the [chunkSize] characters
    from its start, or what is left of the text. *)
Lemma window_take_drop (i : nat) :
  Z.of_nat i * stride chunkSize overlap < str_length text →
  window text chunkSize overlap (Z.of_nat i)
  = take (Z.to_nat chunkSize)
         (drop (i * Z.to_nat (stride chunkSize overlap)) text).
Proof.
  intros Hin. unfold window, slice, clamp_index.
  set (a := Z.of_nat i * stride chunkSize overlap) in *.
  assert (0 ≤ a) as Ha by (subst a; unfold stride; nia).
  assert (Z.to_nat a = (i * Z.to_nat (stride chunkSize overlap))%nat) as Hnat.
  { subst a. rewrite Z2Nat.inj_mul by (unfold stride; lia).
    now rewrite Nat2Z.id. }
  destruct (Z.ltb_spec a 0); [lia|].
  destruct (Z.ltb_spec (Z.min (a + chunkSize) (str_length text)) 0); [lia|].
  destruct (Z.leb_spec (Z.min (Z.min (a + chunkSize) (str_length text))
                              (str_length text))
                       (Z.min a (str_length text))); [lia|].
  rewrite (Z.min_l a) by lia. rewrite Hnat.
  destruct (Z_le_gt_dec (a + chunkSize) (str_length text)) as [Hfull|Hshort].
  - f_equal. lia.
  - rewrite !take_ge; [reflexivity | |];
      rewrite length_drop, <- Hnat; unfold str_length in *; lia.
Qed.

Lemma windows_lookup (i : nat) :
  (i < window_count text chunkSize overlap)%nat →
  windows text chunkSize overlap !! i
  = Some (take (Z.to_nat chunkSize)
               (drop (i * Z.to_nat (stride chunkSize overlap)) text)).
Proof.
  intros Hi. unfold windows.
  assert (0 < stride chunkSize overlap) as Hd by (unfold stride; lia).
  destruct (window_count_bounds text chunkSize overlap Hd) as [Hlo _].
  rewrite list_lookup_fmap, lookup_seq_lt by exact Hi.
  cbn [fmap option_fmap option_map Nat.add]. f_equal.
  apply window_take_drop. nia.
Qed.

Lemma windows_length :
  length (windows text chunkSize overlap) = window_count text chunkSize overlap.
Proof. unfold windows. now rewrite length_map, length_seq. Qed.
End EqualSizeWindows.

(** What a call with a positive chunk size and no positive overlap
    returns is the list of windows. *)
Lemma equalSizeChunk_returns_windows
    (text : jsstring) (chunkSize overlap : Z) (cs : list jsstring) :
  0 < chunkSize → overlap ≤ 0 →
  equalSizeChunk_returns text chunkSize overlap cs →
  cs = windows text chunkSize overlap.
Proof.
  intros HS HO Hcs.
  apply (equalSizeChunk_returns_unique text chunkSize overlap); [exact Hcs|].
  eexists. apply equalSizeChunk_nonpositive_overlap; assumption.
Qed.

Lemma window_count_Z (text : jsstring) (chunkSize overlap : Z) :
  0 < stride chunkSize overlap →
  Z.of_nat (window_count text chunkSize overlap)
  = (str_length text + stride chunkSize overlap - 1) / stride chunkSize overlap.
Proof.
  intros Hd. unfold window_count. apply Z2Nat.id.
  pose proof (str_length_nonneg text). apply Z.div_pos; lia.
Qed.

(** A start index taken as a natural number. *)
Lemma window_start_nat (chunkSize overlap : Z) (i : nat) :
  0 < stride chunkSize overlap →
  Z.of_nat (i * Z.to_nat (stride chunkSize overlap))
  = Z.of_nat i * stride chunkSize overlap.
Proof. intros Hd. rewrite Nat2Z.inj_mul, Z2Nat.id by lia. reflexivity. Qed.

(** With a positive chunk size and an overlap of zero or less, and on an
    engine whose arrays can hold that many elements, the call returns
    [ceil(L / (S - O))] chunks, chunk [i] being the [S] characters of the
    text from position [i * (S - O)], or as many as are left. *)
Theorem equalSizeChunk_chunk_positions
    (max_array_length : nat) (text : jsstring) (chunkSize overlap : Z) :
  0 < chunkSize → overlap ≤ 0 →
  (str_length text + (chunkSize - overlap) - 1) / (chunkSize - overlap)
  ≤ Z.of_nat max_array_length →
  ∃ fuel cs,
    equalSizeChunk_limited max_array_length fuel text chunkSize overlap
    = Some (Return cs)
    ∧ Z.of_nat (length cs)
      = (str_length text + (chunkSize - overlap) - 1) / (chunkSize - overlap)
    ∧ ∀ i : nat, (i < length cs)%nat →
        cs !! i = Some (take (Z.to_nat chunkSize)
                             (drop (i * Z.to_nat (chunkSize - overlap)) text)).
Proof.
  intros HS HO Hfit.
  assert (0 < stride chunkSize overlap) as Hd by (unfold stride; lia).
  pose proof (window_count_Z text chunkSize overlap Hd) as Hcount.
  unfold stride in Hcount.
  exists (S (window_count text chunkSize overlap)), (windows text chunkSize overlap).
  split; [apply equalSizeChunk_limited_windows; try assumption; lia|].
  rewrite windows_length. split; [exact Hcount|].
  intros i Hi. now apply windows_lookup.
Qed.

Lemma equalSizeChunk_chunk_positions_witness :
  ∃ fuel cs,
    equalSizeChunk_limited 1000 fuel (js "abcdefghij") 4 0 = Some (Return cs)
    ∧ Z.of_nat (length cs) = (str_length (js "abcdefghij") + (4 - 0) - 1) / (4 - 0)
    ∧ ∀ i : nat, (i < length cs)%nat →
        cs !! i = Some (take (Z.to_nat 4)
                             (drop (i * Z.to_nat (4 - 0)) (js "abcdefghij"))).
Proof.
  apply (equalSizeChunk_chunk_positions 1000 (js "abcdefghij") 4 0);
    [lia | lia | vm_compute; discriminate].
Defined.

(** With a positive chunk size and an overlap of zero or less, no chunk
    is empty, none is longer than the chunk size, and every chunk but
    the last has exactly the chunk size. *)
Theorem equalSizeChunk_chunk_sizes
    (text : jsstring) (chunkSize overlap : Z) (cs : list jsstring)
    (i : nat) (c : jsstring) :
  0 < chunkSize → overlap ≤ 0 →
  equalSizeChunk_returns text chunkSize overlap cs →
  cs !! i = Some c →
  1 ≤ str_length c ≤ chunkSize
  ∧ ((S i < length cs)%nat → str_length c = chunkSize).
Proof.
  intros HS HO Hcs Hc.
  rewrite (equalSizeChunk_returns_windows _ _ _ _ HS HO Hcs) in Hc |- *.
  assert (i < window_count text chunkSize overlap)%nat as Hi
    by (rewrite <- (windows_length text chunkSize overlap);
        eapply lookup_lt_Some; exact Hc).
  rewrite windows_lookup in Hc by assumption. injection Hc as <-.
  rewrite windows_length.
  assert (0 < stride chunkSize overlap) as Hd by (unfold stride; lia).
  destruct (window_count_bounds text chunkSize overlap Hd) as [Hlo _].
  pose proof (window_start_nat chunkSize overlap i Hd) as Hstart.
  unfold str_length in *. rewrite length_take, length_drop.
  assert (chunkSize ≤ stride chunkSize overlap) by (unfold stride; lia).
  split; [nia|]. intros Hnext. nia.
Qed.

Lemma equalSizeChunk_chunk_sizes_witness :
  1 ≤ str_length (js "efgh") ≤ 4
  ∧ ((2 < length [js "abcd"; js "efgh"; js "ij"])%nat → str_length (js "efgh") = 4).
Proof.
  apply (equalSizeChunk_chunk_sizes (js "abcdefghij") 4 0
           [js "abcd"; js "efgh"; js "ij"] 1 (js "efgh")); [lia | lia | | reflexivity].
  exists 4%nat. vm_compute. reflexivity.
Defined.

Lemma concat_consecutive_takes (text : jsstring) (n : nat) : ∀ m k : nat,
  concat (List.map (λ i, take n (drop (i * n) text)) (seq k m))
  = take (m * n) (drop (k * n) text).
Proof.
  induction m as [|m IH]; intros k; [reflexivity|].
  cbn [seq List.map concat]. rewrite IH.
  replace (S k * n)%nat with (k * n + n)%nat by lia.
  rewrite <- drop_drop, take_take_drop_add. f_equal.
Qed.

Lemma windows_concat (text : jsstring) (chunkSize : Z) :
  0 < chunkSize → concat (windows text chunkSize 0) = text.
Proof.
  intros HS.
  assert (0 < stride chunkSize 0) as Hd by (unfold stride; lia).
  destruct (window_count_bounds text chunkSize 0 Hd) as [Hlo Hup].
  assert (stride chunkSize 0 = chunkSize) as Hst by (unfold stride; lia).
  unfold windows.
  rewrite (map_ext_in _ (λ i, take (Z.to_nat chunkSize)
                                   (drop (i * Z.to_nat chunkSize) text))).
  - rewrite concat_consecutive_takes. cbn [Nat.mul drop].
    apply take_ge. rewrite Hst in Hup. unfold str_length in Hup. nia.
  - intros i Hi. apply in_seq in Hi.
    rewrite window_take_drop, Hst by (try assumption; try lia; nia).
    reflexivity.
Qed.

(** Without overlap, and on an engine whose arrays can hold the chunks,
    the call returns chunks that, put end to end, are the text. *)
Theorem equalSizeChunk_concat
    (max_array_length : nat) (text : jsstring) (chunkSize : Z) :
  0 < chunkSize →
  (str_length text + chunkSize - 1) / chunkSize ≤ Z.of_nat max_array_length →
  ∃ fuel cs,
    equalSizeChunk_limited max_array_length fuel text chunkSize 0
    = Some (Return cs)
    ∧ concat cs = text.
Proof.
  intros HS Hfit.
  assert (0 < stride chunkSize 0) as Hd by (unfold stride; lia).
  pose proof (window_count_Z text chunkSize 0 Hd) as Hcount.
  unfold stride in Hcount. rewrite Z.sub_0_r in Hcount.
  exists (S (window_count text chunkSize 0)), (windows text chunkSize 0).
  split; [apply equalSizeChunk_limited_windows; try assumption; lia|].
  apply windows_concat, HS.
Qed.

Lemma equalSizeChunk_concat_witness :
  ∃ fuel cs,
    equalSizeChunk_limited 1000 fuel (js "abcdefghij") 4 0 = Some (Return cs)
    ∧ concat cs = js "abcdefghij".
Proof.
  apply (equalSizeChunk_concat 1000 (js "abcdefghij") 4);
    [lia | vm_compute; discriminate].
Defined.

(** ** [sentenceChunk]: the sentences *)

Lemma white_space_run_take (s : jsstring) :
  List.Forall (λ c, is_white_space c = true) (take (white_space_run s) s).
Proof.
  induction s as [|c s IH]; cbn [white_space_run]; [constructor|].
  destruct (is_white_space c) eqn:Hc; cbn [take]; constructor; assumption.
Qed.

Lemma white_space_run_le (s : jsstring) : (white_space_run s ≤ length s)%nat.
Proof.
  induction s as [|c s IH]; cbn [white_space_run length]; [lia|].
  destruct (is_white_space c); lia.
Qed.

Lemma boundary_at_run (s : jsstring) (q e : nat) :
  boundary_at s q = Some e →
  (q < e)%nat ∧ (e ≤ length s)%nat ∧ white_space_only (take (e - q) (drop q s))
  ∧ ∃ c, s !! (q - 1)%nat = Some c ∧ is_terminal c = true ∧ (0 < q)%nat.
Proof.
  unfold boundary_at. destruct q as [|q]; [discriminate|].
  destruct (s !! q) as [c|] eqn:Hc; [|discriminate].
  destruct (is_terminal c) eqn:Ht; [|discriminate].
  destruct (white_space_run (drop (S q) s)) as [|n] eqn:Hrun; [discriminate|].
  intros [= <-].
  pose proof (white_space_run_le (drop (S q) s)) as Hle.
  pose proof (white_space_run_take (drop (S q) s)) as Hws.
  rewrite Hrun in Hle, Hws. rewrite length_drop in Hle.
  match goal with
  | |- context [take ?k (drop (S q) s)] => replace k with (S n) by lia
  end.
  split; [lia|]. split; [lia|]. split.
  - split; [|exact Hws].
    clear Hws Hle. revert Hrun.
    destruct (drop (S q) s); [discriminate | intros _; discriminate].
  - exists c. replace (S q - 1)%nat with q by lia. split; [exact Hc|]. split; [exact Ht | lia].
Qed.

(** The pieces and the separators between them make up the part of the
    string that was still to be split. *)
Lemma split_loop_interleave (s : jsstring) (fuel : nat) : ∀ p q : nat,
  (p ≤ q)%nat →
  ∃ seps,
    length (split_loop fuel s p q) = S (length seps)
    ∧ List.Forall white_space_only seps
    ∧ interleave (split_loop fuel s p q) seps = drop p s.
Proof.
  assert (∀ p, [substring_nat s p (length s)] = [drop p s]) as Hlast.
  { intros p. unfold substring_nat. f_equal. apply take_ge.
    rewrite length_drop. lia. }
  induction fuel as [|fuel IH]; intros p q Hpq; cbn [split_loop].
  - exists []. rewrite Hlast. repeat split; constructor.
  - destruct (q <? length s)%nat;
      [|exists []; rewrite Hlast; repeat split; constructor].
    destruct (boundary_at s q) as [e|] eqn:Hb; [|apply IH; lia].
    destruct (e =? p)%nat; [apply IH; lia|].
    destruct (boundary_at_run _ _ _ Hb) as (Hqe & He & Hws & _).
    destruct (IH e e (le_n e)) as (seps & Hlen & Hall & Hjoin).
    exists (take (e - q) (drop q s) :: seps).
    split; [cbn [length]; now rewrite Hlen|].
    split; [constructor; assumption|].
    cbn [interleave]. rewrite Hjoin. unfold substring_nat.
    replace (drop e s) with (drop (e - q) (drop q s))
      by (rewrite drop_drop; f_equal; lia).
    rewrite take_drop.
    replace (drop q s) with (drop (q - p) (drop p s))
      by (rewrite drop_drop; f_equal; lia).
    now rewrite take_drop.
Qed.

Lemma split_sentences_separators (text : jsstring) :
  ∃ seps,
    length (split_sentences text) = S (length seps)
    ∧ List.Forall white_space_only seps
    ∧ interleave (split_sentences text) seps = text.
Proof.
  destruct text as [|c text'].
  - exists []. repeat split; constructor.
  - exact (split_loop_interleave (c :: text') (length (c :: text')) 0 0 (le_n 0)).
Qed.

(** [split] loses nothing: the text is the sentences with a non-empty
    run of white space put back between each two. *)
Theorem split_sentences_interleave (text : jsstring) :
  ∃ seps,
    length (split_sentences text) = S (length seps)
    ∧ List.Forall white_space_only seps
    ∧ interleave (split_sentences text) seps = text.
Proof. apply split_sentences_separators. Qed.

Lemma is_terminal_not_white_space (c : N) :
  is_terminal c = true → is_white_space c = false.
Proof.
  unfold is_terminal. intros H.
  apply orb_true_iff in H. destruct H as [H|H];
    [apply orb_true_iff in H; destruct H as [H|H]|];
    apply N.eqb_eq in H; subst c; reflexivity.
Qed.

Lemma last_take_drop (s : jsstring) (p q : nat) :
  (p < q)%nat → (q ≤ length s)%nat →
  list.last (take (q - p) (drop p s)) = s !! (q - 1)%nat.
Proof.
  intros Hpq Hq. rewrite last_lookup, length_take, length_drop.
  rewrite lookup_take. case_decide; [|lia].
  rewrite lookup_drop. f_equal. lia.
Qed.

(** Where a new piece may start: at the beginning of the string or just
    after a white space. *)
Lemma split_loop_pieces_end (s : jsstring) (fuel : nat) : ∀ p q : nat,
  (p ≤ q)%nat →
  (p = q → p = 0%nat ∨ ∃ c, s !! (p - 1)%nat = Some c ∧ is_white_space c = true) →
  ∀ (i : nat) (piece : jsstring),
    (S i < length (split_loop fuel s p q))%nat →
    split_loop fuel s p q !! i = Some piece →
    ∃ c, list.last piece = Some c ∧ is_terminal c = true.
Proof.
  induction fuel as [|fuel IH]; intros p q Hpq Hfresh i piece Hi Hpiece;
    cbn [split_loop] in *; [cbn in Hi; lia|].
  destruct (Nat.ltb_spec q (length s)) as [Hq|Hq]; [|cbn in Hi; lia].
  destruct (boundary_at s q) as [e|] eqn:Hb;
    [|apply (IH p (S q)) with i; try assumption; lia].
  destruct (e =? p)%nat;
    [apply (IH p (S q)) with i; try assumption; lia|].
  destruct (boundary_at_run _ _ _ Hb) as (Hqe & He & [Hne Hws] & c & Hc & Hterm & Hq0).
  destruct i as [|i].
  - cbn in Hpiece. injection Hpiece as <-. exists c. split; [|exact Hterm].
    unfold substring_nat. rewrite last_take_drop; [exact Hc | | lia].
    destruct (Nat.eq_dec p q) as [Heq|Hneq]; [|lia]. exfalso.
    destruct (Hfresh Heq) as [H0|(c' & Hc' & Hws')]; [lia|].
    subst q. rewrite Hc in Hc'. injection Hc' as <-.
    rewrite (is_terminal_not_white_space _ Hterm) in Hws'. discriminate.
  - cbn in Hpiece, Hi. apply (IH e e) with i; [lia | | lia | exact Hpiece].
    intros _. right.
    assert (take (e - q) (drop q s) !! (e - q - 1)%nat = s !! (e - 1)%nat) as Hlook.
    { rewrite lookup_take. case_decide; [|lia]. rewrite lookup_drop. f_equal. lia. }
    destruct (s !! (e - 1)%nat) as [w|] eqn:Hw.
    + exists w. split; [reflexivity|].
      exact (Forall_lookup_1 _ _ _ _ Hws Hlook).
    + apply lookup_ge_None in Hw. lia.
Qed.

(** Every sentence but the last ends in [.], [!] or [?]. *)
Theorem split_sentences_end_in_punctuation
    (text : jsstring) (i : nat) (sentence : jsstring) :
  (S i < length (split_sentences text))%nat →
  split_sentences text !! i = Some sentence →
  ∃ c, list.last sentence = Some c ∧ is_terminal c = true.
Proof.
  destruct text as [|c text']; [cbn; lia|].
  apply (split_loop_pieces_end (c :: text') (length (c :: text')) 0 0 (le_n 0)).
  intros _. left. reflexivity.
Qed.

Lemma split_sentences_end_in_punctuation_witness :
  ∃ c, list.last (js "Two?") = Some c ∧ is_terminal c = true.
Proof.
  apply (split_sentences_end_in_punctuation (js "One.  Two?   Three! Four") 1 (js "Two?"));
    [vm_compute; lia | vm_compute; reflexivity].
Defined.

(** ** [sentenceChunk]: the chunks *)

Lemma sentenceChunk_chunk_bound_aux
    (this : Chunker) (text : jsstring) (o : options) (c : jsstring) :
  In c (sentenceChunk this text o) →
  str_length c ≤ or_num (opt_chunkSize o) (defaultChunkSize this) + 1
  ∨ ∃ s, In s (split_sentences text) ∧ c = trim s.
Proof.
  intros Hc. unfold sentenceChunk in Hc.
  pose proof (chunk_sentences_within
                (or_num (opt_chunkSize o) (defaultChunkSize this))
                (split_sentences text)) as Hall.
  rewrite List.Forall_forall in Hall. exact (Hall c Hc).
Qed.

(** Every chunk is at most one character longer than the effective chunk
    size ([options.chunkSize || this.defaultChunkSize]), unless it is a
    single sentence, trimmed. *)
Theorem sentenceChunk_chunk_bound
    (this : Chunker) (text : jsstring) (o : options) (c : jsstring) :
  In c (sentenceChunk this text o) →
  str_length c ≤ or_num (opt_chunkSize o) (defaultChunkSize this) + 1
  ∨ ∃ s, In s (split_sentences text) ∧ c = trim s.
Proof. apply sentenceChunk_chunk_bound_aux. Qed.

Lemma sentenceChunk_chunk_bound_witness :
  str_length (js "A. B.") ≤ or_num (Some 4) (defaultChunkSize defaultChunker) + 1
  ∨ ∃ s, In s (split_sentences (js "A. B. C.")) ∧ js "A. B." = trim s.
Proof.
  apply (sentenceChunk_chunk_bound defaultChunker (js "A. B. C.")
           (Options (Some 4) None None None None) (js "A. B.")).
  vm_compute. left. reflexivity.
Defined.

Lemma trim_start_head (s : jsstring) (x : N) :
  list.head (trim_start s) = Some x → is_white_space x = false.
Proof.
  induction s as [|c s IH]; cbn [trim_start]; [discriminate|].
  destruct (is_white_space c) eqn:Hc; [exact IH|].
  cbn. intros [= <-]. exact Hc.
Qed.

Lemma trim_start_suffix (s : jsstring) : ∃ pre, s = pre ++ trim_start s.
Proof.
  induction s as [|c s [pre IH]]; [exists []; reflexivity|].
  cbn [trim_start]. destruct (is_white_space c).
  - exists (c :: pre). cbn. now rewrite <- IH.
  - exists []. reflexivity.
Qed.

Lemma last_rev_head (l : jsstring) : list.last (rev l) = list.head l.
Proof. destruct l as [|x l]; [reflexivity|]. cbn [rev]. apply last_snoc. Qed.

Lemma trim_last (s : jsstring) (x : N) :
  list.last (trim s) = Some x → is_white_space x = false.
Proof. unfold trim. rewrite last_rev_head. apply trim_start_head. Qed.

Lemma trim_head (s : jsstring) (x : N) :
  list.head (trim s) = Some x → is_white_space x = false.
Proof.
  unfold trim. intros Hx.
  destruct (trim_start_suffix (rev (trim_start s))) as [pre Hpre].
  apply (f_equal (@rev N)) in Hpre.
  rewrite rev_involutive, rev_app_distr in Hpre.
  apply (trim_start_head s). rewrite Hpre.
  destruct (rev (trim_start (rev (trim_start s)))) as [|y t]; [discriminate|].
  exact Hx.
Qed.

(** A property of every trimmed string holds of every chunk. *)
Lemma chunk_sentences_all_trimmed (P : jsstring → Prop) (limit : Z) :
  (∀ u, P (trim u)) →
  ∀ sentences, List.Forall P (chunk_sentences limit sentences).
Proof.
  intros HP sentences. unfold chunk_sentences.
  assert (∀ l st, List.Forall P (fst st) →
                  List.Forall P (fst (fold_left (sentence_step limit) l st))) as Hfold.
  { induction l as [|s l IH]; intros st Hst; [exact Hst|].
    cbn [fold_left]. apply IH. destruct st as [chunks cur]. unfold sentence_step.
    destruct (str_length (cur ++ s) <=? limit); cbn [fst] in *; [exact Hst|].
    destruct (str_truthy cur); [|exact Hst].
    apply Forall_app. split; [exact Hst|]. constructor; [apply HP | constructor]. }
  specialize (Hfold sentences ([], []) (Forall_nil _)).
  destruct (fold_left (sentence_step limit) sentences ([], [])) as [chunks cur].
  cbn [fst sentence_finish] in *.
  destruct (str_truthy cur); [|exact Hfold].
  apply Forall_app. split; [exact Hfold|]. constructor; [apply HP | constructor].
Qed.

(** No chunk starts or ends with white space. *)
Theorem sentenceChunk_chunks_trimmed
    (this : Chunker) (text : jsstring) (o : options) (c : jsstring) :
  In c (sentenceChunk this text o) →
  (∀ x, list.head c = Some x → is_white_space x = false)
  ∧ (∀ x, list.last c = Some x → is_white_space x = false).
Proof.
  intros Hc. unfold sentenceChunk in Hc. revert c Hc.
  apply List.Forall_forall. apply chunk_sentences_all_trimmed.
  intros u. split; intros x; [apply trim_head | apply trim_last].
Qed.

Lemma sentenceChunk_chunks_trimmed_witness :
  (∀ x, list.head (js "Hi there.") = Some x → is_white_space x = false)
  ∧ (∀ x, list.last (js "Hi there.") = Some x → is_white_space x = false).
Proof.
  apply (sentenceChunk_chunks_trimmed defaultChunker (js "  Hi there.  ")
           no_options (js "Hi there.")).
  vm_compute. left. reflexivity.
Defined.

(** One pass adds at most one chunk to what the call would return. *)
Lemma sentence_step_count (limit : Z) (st : sentence_state) (s : jsstring) :
  (length (sentence_finish (sentence_step limit st s))
   ≤ S (length (sentence_finish st)))%nat.
Proof.
  destruct st as [chunks cur]. unfold sentence_step, sentence_finish.
  destruct (str_length (cur ++ s) <=? limit).
  - destruct (str_truthy (cur ++ _ ++ s)), (str_truthy cur);
      rewrite ?length_app; cbn [length]; lia.
  - destruct (str_truthy s), (str_truthy cur);
      rewrite ?length_app; cbn [length]; lia.
Qed.

Lemma fold_sentence_step_count (limit : Z) (l : list jsstring) : ∀ st,
  (length (sentence_finish (fold_left (sentence_step limit) l st))
   ≤ length (sentence_finish st) + length l)%nat.
Proof.
  induction l as [|s l IH]; intros st; cbn [fold_left length]; [lia|].
  pose proof (IH (sentence_step limit st s)).
  pose proof (sentence_step_count limit st s). lia.
Qed.

(** There are never more chunks than sentences. *)
Theorem sentenceChunk_count (this : Chunker) (text : jsstring) (o : options) :
  (length (sentenceChunk this text o) ≤ length (split_sentences text))%nat.
Proof.
  unfold sentenceChunk, chunk_sentences.
  apply (fold_sentence_step_count _ (split_sentences text) ([], [])).
Qed.

(** While the running chunk and the sentences still to come fit the
    bound, one separator each, nothing is pushed. *)
Lemma fold_sentence_step_no_push (limit : Z) (l : list jsstring) :
  ∀ (chunks : list jsstring) (cur : jsstring),
  str_length cur + sum_sizes (List.map (λ s, str_length s + 1) l) ≤ limit + 1 →
  fst (fold_left (sentence_step limit) l (chunks, cur)) = chunks.
Proof.
  induction l as [|s l IH]; intros chunks cur Hfit; [reflexivity|].
  cbn [fold_left List.map sum_sizes fold_right] in *.
  fold (sum_sizes (List.map (λ s, str_length s + 1) l)) in Hfit.
  assert (0 ≤ sum_sizes (List.map (λ s, str_length s + 1) l)) as Hrest.
  { clear. induction l as [|s l IH]; cbn [List.map sum_sizes fold_right]; [lia|].
    fold (sum_sizes (List.map (λ s, str_length s + 1) l)).
    pose proof (str_length_nonneg s). lia. }
  unfold sentence_step at 2. rewrite str_length_app.
  destruct (Z.leb_spec (str_length cur + str_length s) limit) as [_|?]; [|lia].
  apply IH. rewrite !str_length_app.
  destruct (str_truthy cur);
    [change (str_length (js " ")) with 1 | change (str_length (js "")) with 0];
    lia.
Qed.

Lemma interleave_sizes (pieces : list jsstring) : ∀ seps : list jsstring,
  length pieces = S (length seps) →
  List.Forall white_space_only seps →
  sum_sizes (List.map (λ s, str_length s + 1) pieces)
  ≤ str_length (interleave pieces seps) + 1.
Proof.
  induction pieces as [|piece pieces IH]; intros seps Hlen Hws; [discriminate|].
  cbn [List.map sum_sizes fold_right interleave].
  fold (sum_sizes (List.map (λ s, str_length s + 1) pieces)).
  destruct seps as [|sep seps].
  - destruct pieces; [cbn; lia | discriminate].
  - apply Forall_cons_iff in Hws. destruct Hws as [[Hne _] Hws].
    cbn [length] in Hlen. injection Hlen as Hlen.
    specialize (IH seps Hlen Hws). rewrite !str_length_app.
    assert (1 ≤ str_length sep)
      by (destruct sep; [contradiction | unfold str_length; cbn [length]; lia]).
    lia.
Qed.

(** A text no longer than the effective chunk size is not cut: the call
    returns at most one chunk. *)
Theorem sentenceChunk_short_text
    (this : Chunker) (text : jsstring) (o : options) :
  str_length text ≤ or_num (opt_chunkSize o) (defaultChunkSize this) →
  (length (sentenceChunk this text o) ≤ 1)%nat.
Proof.
  intros Hfit. unfold sentenceChunk, chunk_sentences.
  destruct (split_sentences_separators text) as (seps & Hlen & Hws & Hjoin).
  pose proof (interleave_sizes _ _ Hlen Hws) as Hsizes. rewrite Hjoin in Hsizes.
  pose proof (fold_sentence_step_no_push
                (or_num (opt_chunkSize o) (defaultChunkSize this))
                (split_sentences text) [] []) as Hno.
  specialize (Hno ltac:(change (str_length []) with 0; lia)).
  destruct (fold_left (sentence_step _) (split_sentences text) ([], []))
    as [chunks cur].
  cbn [fst] in Hno. subst chunks.
  cbn [sentence_finish]. destruct (str_truthy cur); cbn; lia.
Qed.

Lemma sentenceChunk_short_text_witness :
  (length (sentenceChunk defaultChunker (js "One. Two? Three!")
             (Options (Some 16%Z) None None None None)) ≤ 1)%nat.
Proof.
  apply sentenceChunk_short_text. vm_compute. discriminate.
Defined.

(** Sentences that are each longer than the bound are never joined. *)
Lemma fold_sentence_step_long (limit : Z) (l : list jsstring) :
  ∀ (chunks : list jsstring) (cur : jsstring),
  List.Forall (λ s, limit < str_length s) l →
  sentence_finish (fold_left (sentence_step limit) l (chunks, cur))
  = chunks ++ List.map trim (List.filter str_truthy (cur :: l)).
Proof.
  induction l as [|s l IH]; intros chunks cur Hlong.
  - cbn. destruct (str_truthy cur); [reflexivity | now rewrite app_nil_r].
  - apply Forall_cons_iff in Hlong. destruct Hlong as [Hs Hlong].
    cbn [fold_left]. unfold sentence_step at 2. rewrite str_length_app.
    pose proof (str_length_nonneg cur).
    destruct (Z.leb_spec (str_length cur + str_length s) limit) as [?|_]; [lia|].
    rewrite IH by exact Hlong. cbn [List.filter].
    destruct (str_truthy cur); [|reflexivity].
    cbn [List.map]. now rewrite <- app_assoc.
Qed.

(** When every sentence is longer than the effective chunk size, each
    sentence, trimmed, is a chunk of its own: an oversized sentence is
    neither cut nor dropped. *)
Theorem sentenceChunk_long_sentences
    (this : Chunker) (text : jsstring) (o : options) :
  List.Forall
    (λ s, or_num (opt_chunkSize o) (defaultChunkSize this) < str_length s)
    (split_sentences text) →
  sentenceChunk this text o
  = List.map trim (List.filter str_truthy (split_sentences text)).
Proof.
  intros Hlong. unfold sentenceChunk, chunk_sentences.
  rewrite fold_sentence_step_long by exact Hlong. reflexivity.
Qed.

Lemma sentenceChunk_long_sentences_witness :
  sentenceChunk defaultChunker (js "One.  Two? Three!")
    (Options (Some 3) None None None None)
  = List.map trim (List.filter str_truthy (split_sentences (js "One.  Two? Three!"))).
Proof.
  apply sentenceChunk_long_sentences.
  vm_compute. repeat constructor.
Defined.

(** ** [validateChunks] and [getChunkStats] together *)

Lemma no_oversized_iff (maxSize : Z) (chunks : list jsstring) :
  length (List.filter (λ chunk, maxSize <? str_length chunk) chunks) = 0%nat
  ↔ List.Forall (λ chunk, str_length chunk ≤ maxSize) chunks.
Proof.
  induction chunks as [|c chunks IH]; cbn [List.filter].
  - split; [constructor | reflexivity].
  - rewrite Forall_cons_iff, <- IH.
    destruct (Z.ltb_spec maxSize (str_length c)); cbn [length];
      split; try lia; intros H; try (split; [lia | exact H]); tauto.
Qed.

Lemma isValid_iff (maxSize : Z) (chunks : list jsstring) :
  Validation.isValid (validateChunks chunks maxSize) = true
  ↔ List.Forall (λ chunk, str_length chunk ≤ maxSize) chunks.
Proof.
  cbn [validateChunks Validation.isValid].
  rewrite Z.eqb_eq, <- no_oversized_iff. lia.
Qed.

Lemma oversizedIndices_positions (maxSize : Z) (chunks : list jsstring) :
  Validation.oversizedIndices (validateChunks chunks maxSize)
  = oversized_from maxSize 0 chunks.
Proof. exact (marked_indices_from maxSize chunks 0). Qed.

(** A collection is reported valid exactly when every chunk is within
    the bound; the empty collection always is. *)
Theorem validateChunks_valid_iff_all_within
    (chunks : list jsstring) (maxSize : Z) :
  (Validation.isValid (validateChunks chunks maxSize) = true
   ↔ ∀ c, In c chunks → str_length c ≤ maxSize)
  ∧ Validation.isValid (validateChunks [] maxSize) = true.
Proof.
  split; [|reflexivity].
  rewrite isValid_iff. apply List.Forall_forall.
Qed.

(** Raising the bound never makes more chunks oversized: a collection
    valid at a bound is valid at every larger one, and the oversized
    positions at the larger bound are among those at the smaller. *)
Theorem validateChunks_monotone
    (chunks : list jsstring) (maxSize maxSize' : Z) :
  maxSize ≤ maxSize' →
  (Validation.isValid (validateChunks chunks maxSize) = true →
   Validation.isValid (validateChunks chunks maxSize') = true)
  ∧ Validation.oversizedChunks (validateChunks chunks maxSize')
    ≤ Validation.oversizedChunks (validateChunks chunks maxSize)
  ∧ ∀ i, In i (Validation.oversizedIndices (validateChunks chunks maxSize')) →
         In i (Validation.oversizedIndices (validateChunks chunks maxSize)).
Proof.
  intros Hle. split; [|split].
  - rewrite !isValid_iff. apply Forall_impl. intros c Hc. lia.
  - cbn [validateChunks Validation.oversizedChunks].
    rewrite !length_filter_count.
    induction chunks as [|c chunks IH]; cbn [count_chunks]; [lia|].
    destruct (Z.ltb_spec maxSize' (str_length c));
      destruct (Z.ltb_spec maxSize (str_length c)); lia.
  - intros i. rewrite !oversizedIndices_positions, !oversized_from_In.
    intros (n & c & Hi & Hn & Hc). exists n, c. repeat split; try assumption. lia.
Qed.

Lemma validateChunks_monotone_witness :
  (Validation.isValid (validateChunks [js "ab"; js "abcdef"] 3) = true →
   Validation.isValid (validateChunks [js "ab"; js "abcdef"] 6) = true)
  ∧ Validation.oversizedChunks (validateChunks [js "ab"; js "abcdef"] 6)
    ≤ Validation.oversizedChunks (validateChunks [js "ab"; js "abcdef"] 3)
  ∧ ∀ i, In i (Validation.oversizedIndices (validateChunks [js "ab"; js "abcdef"] 6)) →
         In i (Validation.oversizedIndices (validateChunks [js "ab"; js "abcdef"] 3)).
Proof.
  apply (validateChunks_monotone [js "ab"; js "abcdef"] 3 6). lia.
Defined.

Lemma isValid_iff_max_within (chunks : list jsstring) (maxSize : Z) :
  chunks ≠ [] →
  ∃ stats mx,
    getChunkStats chunks = Return stats
    ∧ Statistics.maxChunkSize stats = Num mx
    ∧ (Validation.isValid (validateChunks chunks maxSize) = true ↔ mx ≤ maxSize).
Proof.
  intros Hne. destruct chunks as [|c chunks]; [contradiction|].
  eexists. exists (fold_left Z.max (List.map str_length chunks) (str_length c)).
  split; [reflexivity|]. split; [reflexivity|].
  destruct (fold_left_max_spec (List.map str_length chunks) (str_length c))
    as [Hin Hall].
  rewrite isValid_iff. change (str_length c :: List.map str_length chunks)
    with (List.map str_length (c :: chunks)) in *.
  rewrite List.Forall_forall in Hall. rewrite List.Forall_forall. split.
  - intros Hvalid. apply in_map_iff in Hin. destruct Hin as (c' & <- & Hc').
    apply Hvalid, Hc'.
  - intros Hmx c' Hc'.
    specialize (Hall (str_length c') (in_map str_length _ _ Hc')). lia.
Qed.

(** The two reports agree: for a non-empty collection with no more chunks
    than the engine accepts arguments, [getChunkStats] returns, and the
    collection is valid at a bound exactly when the [maxChunkSize] of its
    statistics is within it.  With more chunks [getChunkStats] fails with
    RangeError, while [validateChunks] still reports. *)
Theorem validateChunks_agrees_with_stats
    (max_arguments : nat) (chunks : list jsstring) (maxSize : Z) :
  chunks ≠ [] →
  ((length chunks ≤ max_arguments)%nat →
   ∃ stats mx,
     getChunkStats_limited max_arguments chunks = Return stats
     ∧ Statistics.maxChunkSize stats = Num mx
     ∧ (Validation.isValid (validateChunks chunks maxSize) = true ↔ mx ≤ maxSize))
  ∧ ((max_arguments < length chunks)%nat →
     getChunkStats_limited max_arguments chunks = Throw RangeError
     ∧ Validation.totalChunks (validateChunks chunks maxSize)
       = Z.of_nat (length chunks)).
Proof.
  intros Hne. split.
  - intros Hfit. rewrite getChunkStats_limited_within by exact Hfit.
    apply isValid_iff_max_within, Hne.
  - intros Hbig. split; [now apply getChunkStats_limited_beyond | reflexivity].
Qed.

Lemma validateChunks_agrees_with_stats_witness :
  (∃ stats mx,
     getChunkStats_limited 1000 [js "ab"; js "abcdef"] = Return stats
     ∧ Statistics.maxChunkSize stats = Num mx
     ∧ (Validation.isValid (validateChunks [js "ab"; js "abcdef"] 3) = true ↔ mx ≤ 3))
  ∧ getChunkStats_limited 1 [js "ab"; js "abcdef"] = Throw RangeError.
Proof.
  split.
  - apply (validateChunks_agrees_with_stats 1000 [js "ab"; js "abcdef"] 3);
      [discriminate | cbn [length]; lia].
  - apply (validateChunks_agrees_with_stats 1 [js "ab"; js "abcdef"] 3);
      [discriminate | cbn [length]; lia].
Defined.

(** What [validateChunks] reports when every chunk is within the bound. *)
Lemma validateChunks_all_within (chunks : list jsstring) (maxSize : Z) :
  List.Forall (λ chunk, str_length chunk ≤ maxSize) chunks →
  validateChunks chunks maxSize
  = {| Validation.isValid := true;
       Validation.totalChunks := Z.of_nat (length chunks);
       Validation.validChunks := Z.of_nat (length chunks);
       Validation.oversizedChunks := 0;
       Validation.oversizedIndices := [] |}.
Proof.
  intros Hall.
  assert (List.filter (λ chunk, maxSize <? str_length chunk) chunks = []) as Hgt.
  { induction Hall as [|c chunks Hc _ IH]; [reflexivity|]. cbn [List.filter].
    destruct (Z.ltb_spec maxSize (str_length c)); [lia | exact IH]. }
  assert (List.filter (λ chunk, str_length chunk <=? maxSize) chunks = chunks) as Hle.
  { clear Hgt. induction Hall as [|c chunks Hc _ IH]; [reflexivity|].
    cbn [List.filter].
    destruct (Z.leb_spec (str_length c) maxSize); [now rewrite IH | lia]. }
  assert (∀ k, oversized_from maxSize k chunks = []) as Hidx.
  { clear Hgt Hle. induction Hall as [|c chunks Hc _ IH]; intros k; [reflexivity|].
    cbn [oversized_from].
    destruct (Z.ltb_spec maxSize (str_length c)); [lia | apply IH]. }
  pose proof (oversizedIndices_positions maxSize chunks) as Hpos.
  rewrite Hidx in Hpos.
  unfold validateChunks in *. cbn [Validation.oversizedIndices] in Hpos.
  rewrite Hgt, Hle, Hpos. reflexivity.
Qed.

Lemma windows_within (text : jsstring) (chunkSize overlap : Z) :
  0 < chunkSize → overlap ≤ 0 →
  List.Forall (λ c, str_length c ≤ chunkSize) (windows text chunkSize overlap).
Proof.
  intros HS HO. apply Forall_lookup. intros i c Hc.
  assert (i < window_count text chunkSize overlap)%nat as Hi
    by (rewrite <- (windows_length text chunkSize overlap);
        eapply lookup_lt_Some; exact Hc).
  rewrite windows_lookup in Hc by assumption. injection Hc as <-.
  unfold str_length. rewrite length_take. lia.
Qed.

(** Chunks cut by [equalSizeChunk] always pass [validateChunks] at any
    bound from the chunk size up: none is reported oversized. *)
Theorem equalSizeChunk_then_validateChunks
    (text : jsstring) (chunkSize overlap maxSize : Z) (cs : list jsstring) :
  0 < chunkSize → overlap ≤ 0 → chunkSize ≤ maxSize →
  equalSizeChunk_returns text chunkSize overlap cs →
  validateChunks cs maxSize
  = {| Validation.isValid := true;
       Validation.totalChunks := Z.of_nat (length cs);
       Validation.validChunks := Z.of_nat (length cs);
       Validation.oversizedChunks := 0;
       Validation.oversizedIndices := [] |}.
Proof.
  intros HS HO Hmax Hcs. apply validateChunks_all_within.
  rewrite (equalSizeChunk_returns_windows _ _ _ _ HS HO Hcs).
  apply List.Forall_impl with (P := λ c, str_length c ≤ chunkSize);
    [intros c Hc; lia | apply windows_within; assumption].
Qed.

Lemma equalSizeChunk_then_validateChunks_witness :
  validateChunks [js "abcd"; js "efgh"; js "ij"] 4
  = {| Validation.isValid := true;
       Validation.totalChunks := Z.of_nat (length [js "abcd"; js "efgh"; js "ij"]);
       Validation.validChunks := Z.of_nat (length [js "abcd"; js "efgh"; js "ij"]);
       Validation.oversizedChunks := 0;
       Validation.oversizedIndices := [] |}.
Proof.
  apply (equalSizeChunk_then_validateChunks (js "abcdefghij") 4 0 4); [lia | lia | lia |].
  exists 4%nat. vm_compute. reflexivity.
Defined.

Lemma sum_sizes_concat (cs : list jsstring) :
  sum_sizes (List.map str_length cs) = str_length (concat cs).
Proof.
  induction cs as [|c cs IH]; [reflexivity|].
  cbn [List.map sum_sizes fold_right concat]. rewrite str_length_app.
  unfold sum_sizes in IH. now rewrite IH.
Qed.

(** On an engine that can hold the chunks in an array and accepts as
    many arguments, cutting a text without overlap and taking the
    statistics of the chunks counts every character of the text once:
    [totalCharacters] is the length of the text and [totalChunks] is
    that length divided by the chunk size, rounded up. *)
Theorem equalSizeChunk_then_getChunkStats
    (max_array_length max_arguments : nat) (text : jsstring) (chunkSize : Z) :
  0 < chunkSize →
  (str_length text + chunkSize - 1) / chunkSize ≤ Z.of_nat max_array_length →
  (str_length text + chunkSize - 1) / chunkSize ≤ Z.of_nat max_arguments →
  ∃ fuel cs stats,
    equalSizeChunk_limited max_array_length fuel text chunkSize 0
    = Some (Return cs)
    ∧ getChunkStats_limited max_arguments cs = Return stats
    ∧ Statistics.totalCharacters stats = str_length text
    ∧ Statistics.totalChunks stats
      = (str_length text + chunkSize - 1) / chunkSize.
Proof.
  intros HS Harray Hargs.
  assert (0 < stride chunkSize 0) as Hd by (unfold stride; lia).
  pose proof (window_count_Z text chunkSize 0 Hd) as Hcount.
  unfold stride in Hcount. rewrite Z.sub_0_r in Hcount.
  exists (S (window_count text chunkSize 0)), (windows text chunkSize 0).
  eexists. split; [apply equalSizeChunk_limited_windows; try assumption; lia|].
  rewrite getChunkStats_limited_within by (rewrite windows_length; lia).
  split; [reflexivity|].
  cbn [Statistics.totalCharacters Statistics.totalChunks].
  rewrite fold_left_add_sum, Z.add_0_l.
  change (List.map (λ chunk, str_length chunk) (windows text chunkSize 0))
    with (List.map str_length (windows text chunkSize 0)).
  rewrite sum_sizes_concat, windows_concat by exact HS.
  split; [reflexivity|]. rewrite windows_length. exact Hcount.
Qed.

Lemma equalSizeChunk_then_getChunkStats_witness :
  ∃ fuel cs stats,
    equalSizeChunk_limited 1000 fuel (js "abcdefghij") 4 0 = Some (Return cs)
    ∧ getChunkStats_limited 1000 cs = Return stats
    ∧ Statistics.totalCharacters stats = str_length (js "abcdefghij")
    ∧ Statistics.totalChunks stats = (str_length (js "abcdefghij") + 4 - 1) / 4.
Proof.
  apply (equalSizeChunk_then_getChunkStats 1000 1000 (js "abcdefghij") 4);
    [lia | vm_compute; discriminate | vm_compute; discriminate].
Defined.

(** Validated one character above the effective chunk size, the chunks
    of [sentenceChunk] that are still oversized are single sentences. *)
Theorem sentenceChunk_then_validateChunks
    (this : Chunker) (text : jsstring) (o : options) (i : Z) :
  In i (Validation.oversizedIndices
          (validateChunks (sentenceChunk this text o)
             (or_num (opt_chunkSize o) (defaultChunkSize this) + 1))) →
  ∃ (n : nat) (s : jsstring),
    i = Z.of_nat n
    ∧ sentenceChunk this text o !! n = Some (trim s)
    ∧ In s (split_sentences text)
    ∧ or_num (opt_chunkSize o) (defaultChunkSize this) + 1 < str_length (trim s).
Proof.
  rewrite oversizedIndices_positions, oversized_from_In.
  intros (n & c & -> & Hn & Hc).
  assert (In c (sentenceChunk this text o)) as Hin
    by (apply list_elem_of_In, list_elem_of_lookup; eauto).
  destruct (sentenceChunk_chunk_bound_aux this text o c Hin) as [Hle|(s & Hs & ->)];
    [lia|].
  exists n, s. repeat split; assumption.
Qed.

Lemma sentenceChunk_then_validateChunks_witness :
  ∃ (n : nat) (s : jsstring),
    1 = Z.of_nat n
    ∧ sentenceChunk defaultChunker (js "A. Long sentence here. B.")
        (Options (Some 4) None None None None) !! n = Some (trim s)
    ∧ In s (split_sentences (js "A. Long sentence here. B."))
    ∧ or_num (Some 4) (defaultChunkSize defaultChunker) + 1 < str_length (trim s).
Proof.
  apply (sentenceChunk_then_validateChunks defaultChunker
           (js "A. Long sentence here. B.") (Options (Some 4) None None None None) 1).
  vm_compute. left. reflexivity.
Defined.

(** ** [equalSizeChunk] with a positive overlap *)

(** On a non-empty text a positive overlap makes the call fail: every
    pass of the loop pushes one more chunk, so after as many passes as
    the engine's arrays have room the loop is still running, and the next
    [push] fails with RangeError.  The call neither returns nor runs for
    ever. *)
Theorem equalSizeChunk_positive_overlap_overflows
    (max_array_length : nat) (text : jsstring) (chunkSize overlap : Z) :
  text ≠ [] → 0 < overlap →
  (∀ fuel, (fuel ≤ max_array_length)%nat →
     equalSizeChunk_limited max_array_length fuel text chunkSize overlap = None)
  ∧ equalSizeChunk_limited max_array_length (S max_array_length)
      text chunkSize overlap
    = Some (Throw RangeError).
Proof.
  intros Ht Ho. unfold equalSizeChunk_limited.
  apply loop_limited_overflow; [exact Ho | | reflexivity].
  cbn [start]. destruct text; [contradiction|].
  unfold str_length. cbn [length]. lia.
Qed.

Lemma equalSizeChunk_positive_overlap_overflows_witness :
  (∀ fuel, (fuel ≤ 50)%nat →
     equalSizeChunk_limited 50 fuel (js "abcdefghij") 4 1 = None)
  ∧ equalSizeChunk_limited 50 51 (js "abcdefghij") 4 1 = Some (Throw RangeError).
Proof.
  apply equalSizeChunk_positive_overlap_overflows; [discriminate | lia].
Defined.

(** ** The options of the delegating entry points *)

Lemma or_num_nonzero (a : option Z) (d : Z) : d ≠ 0 → or_num a d ≠ 0.
Proof.
  intros Hd. unfold or_num. destruct a as [z|]; [|exact Hd].
  destruct (Z.eqb_spec z 0); assumption.
Qed.

Lemma or_num_supplied_spec (a : option Z) (d : Z) :
  or_num a d = match supplied a with Some z => z | None => d end.
Proof.
  unfold or_num, supplied. destruct a as [z|]; [|reflexivity].
  destruct (z =? 0); reflexivity.
Qed.

(** A facade built by the constructor never hands the library a chunk
    size or an overlap of 0, whatever the constructor and the call were
    given; in particular no splitter can be configured without overlap. *)
Theorem splitter_options_never_zero (c o : options) (delim : jsstring) :
  List.Forall (λ s, splitter_chunkSize s ≠ 0 ∧ splitter_chunkOverlap s ≠ 0)
    [recursiveCharacterChunk_splitter (new_Chunker c) o;
     characterChunk_splitter (new_Chunker c) o;
     tokenChunk_splitter o;
     markdownChunk_splitter (new_Chunker c) o;
     semanticChunk_splitter (new_Chunker c) o;
     delimiterChunk_splitter (new_Chunker c) delim o].
Proof.
  repeat (constructor;
          [split; cbn [splitter_chunkSize splitter_chunkOverlap
                       recursiveCharacterChunk_splitter characterChunk_splitter
                       tokenChunk_splitter markdownChunk_splitter
                       semanticChunk_splitter delimiterChunk_splitter
                       new_Chunker defaultChunkSize defaultChunkOverlap];
           repeat apply or_num_nonzero; lia|]).
  constructor.
Qed.

(** Precedence of the numeric options, for a facade built by the
    constructor: a value given in the call and not 0 wins, then a value
    given to the constructor and not 0, then the constant 1000 (chunk
    size) or 200 (overlap).  [tokenChunk] skips the constructor's values
    and falls back to 100 and 20. *)
Theorem numeric_options_precedence (c o : options) (delim : jsstring) :
  let size :=
    match supplied (opt_chunkSize o), supplied (opt_chunkSize c) with
    | Some n, _ => n
    | None, Some n => n
    | None, None => 1000
    end in
  let over :=
    match supplied (opt_chunkOverlap o), supplied (opt_chunkOverlap c) with
    | Some n, _ => n
    | None, Some n => n
    | None, None => 200
    end in
  List.Forall (λ s, splitter_chunkSize s = size ∧ splitter_chunkOverlap s = over)
    [recursiveCharacterChunk_splitter (new_Chunker c) o;
     characterChunk_splitter (new_Chunker c) o;
     markdownChunk_splitter (new_Chunker c) o;
     semanticChunk_splitter (new_Chunker c) o;
     delimiterChunk_splitter (new_Chunker c) delim o]
  ∧ splitter_chunkSize (tokenChunk_splitter o)
    = match supplied (opt_chunkSize o) with Some n => n | None => 100 end
  ∧ splitter_chunkOverlap (tokenChunk_splitter o)
    = match supplied (opt_chunkOverlap o) with Some n => n | None => 20 end.
Proof.
  cbv zeta. split; [|split; apply or_num_supplied_spec].
  repeat (constructor;
          [cbn [splitter_chunkSize splitter_chunkOverlap
                recursiveCharacterChunk_splitter characterChunk_splitter
                markdownChunk_splitter semanticChunk_splitter
                delimiterChunk_splitter new_Chunker defaultChunkSize
                defaultChunkOverlap];
           rewrite !or_num_supplied_spec;
           split; [destruct (supplied (opt_chunkSize o)),
                            (supplied (opt_chunkSize c))
                  | destruct (supplied (opt_chunkOverlap o)),
                             (supplied (opt_chunkOverlap c))];
           reflexivity|]).
  constructor.
Qed.

(** [delimiterChunk] hands the library its delimiter as it is, the empty
    string included, while [characterChunk] replaces an empty separator by
    a line feed.  So [characterChunk] with separator [d] is
    [delimiterChunk] with delimiter [d] for every non-empty [d], and the
    two differ on the empty string. *)
Theorem characterChunk_with_separator
    (this : Chunker) (splitText : splitter → jsstring → completion (list jsstring))
    (text delim : jsstring) (o : options) :
  let size := or_num (opt_chunkSize o) (defaultChunkSize this) in
  let over := or_num (opt_chunkOverlap o) (defaultChunkOverlap this) in
  delimiterChunk_splitter this delim o = CharacterTextSplitter size over delim
  ∧ characterChunk_splitter this (with_separator o delim)
    = CharacterTextSplitter size over (if str_truthy delim then delim else [10%N])
  ∧ characterChunk this splitText text (with_separator o delim)
    = delimiterChunk this splitText text
        (if str_truthy delim then delim else [10%N]) o
  ∧ characterChunk_splitter this (with_separator o [])
    ≠ delimiterChunk_splitter this [] o.
Proof.
  cbv zeta.
  unfold characterChunk, delimiterChunk, characterChunk_splitter,
    delimiterChunk_splitter, with_separator, or_str.
  cbn [opt_chunkSize opt_chunkOverlap opt_separator str_truthy].
  split; [reflexivity|]. split; [destruct (str_truthy delim); reflexivity|].
  split; [destruct (str_truthy delim); reflexivity|]. discriminate.
Qed.
